(** * login_setup.py: the interactive Monarch Money login, in Rocq

    A shallow embedding of [login_setup.py]: the token normaliser
    [_normalize_token], the connection validator [_test_connection] and the
    orchestrator [main], followed by the properties of the specification that
    concern them.

    Python's [str] is a sequence of Unicode code points and is modelled as a
    list of [N].  The interpreter's resource limits (recursion depth, the
    digit limit of [int]) are not modelled. *)

From Stdlib Require Import List NArith ZArith String Ascii Bool Lia.
Import ListNotations.

Set Implicit Arguments.
Set Warnings "-register-all".
Local Open Scope string_scope.
Local Open Scope list_scope.

Abbreviation length := List.length.

(** ** Strings *)

Definition char := N.
Definition str := list char.

Definition ch (a : ascii) : char := N_of_ascii a.
Definition str_of (s : string) : str := map N_of_ascii (list_ascii_of_string s).
Coercion str_of : string >-> str.

Definition dquote : char := 0x22%N.
Definition squote : char := 0x27%N.

Definition str_eqb (a b : str) : bool :=
  if list_eq_dec N.eq_dec a b then true else false.

(** [str.isspace] on one code point; the same table decides [\s] in [re]. *)
Definition isspace (c : char) : bool :=
  ((0x09 <=? c) && (c <=? 0x0D) || (0x1C <=? c) && (c <=? 0x20)
   || (c =? 0x85) || (c =? 0xA0) || (c =? 0x1680)
   || (0x2000 <=? c) && (c <=? 0x200A)
   || (c =? 0x2028) || (c =? 0x2029) || (c =? 0x202F) || (c =? 0x205F)
   || (c =? 0x3000))%N.

(** [str.isalnum] on one code point.  The rows of the Unicode table up to
    U+00FF are reproduced; the rows above are not, and the function answers
    [false] there. *)
Definition isalnum (c : char) : bool :=
  ((0x30 <=? c) && (c <=? 0x39) || (0x41 <=? c) && (c <=? 0x5A)
   || (0x61 <=? c) && (c <=? 0x7A)
   || (c =? 0xAA) || (0xB2 <=? c) && (c <=? 0xB3) || (c =? 0xB5)
   || (0xB9 <=? c) && (c <=? 0xBA) || (0xBC <=? c) && (c <=? 0xBE)
   || (0xC0 <=? c) && (c <=? 0xD6) || (0xD8 <=? c) && (c <=? 0xF6)
   || (0xF8 <=? c) && (c <=? 0xFF))%N.

(** [str.lower] on one code point.  Basic Latin and Latin-1 are reproduced,
    and so are the three code points above U+00FF whose lowercase lands in
    them: KELVIN SIGN, ANGSTROM SIGN and LATIN CAPITAL LETTER I WITH DOT
    ABOVE, the only code point whose lowercase has two code points.  Other
    code points are left as they are; their lowercase is never a Basic Latin
    character, and the source compares lowered text with Basic Latin
    literals only. *)
Definition lower_char (c : char) : list char :=
  (if (0x41 <=? c) && (c <=? 0x5A) then [c + 32]
   else if (0xC0 <=? c) && (c <=? 0xDE) && negb (c =? 0xD7) then [c + 32]
   else if c =? 0x212A then [0x6B]
   else if c =? 0x212B then [0xE5]
   else if c =? 0x0130 then [0x69; 0x0307]
   else [c])%N.

Definition lower (s : str) : str := flat_map lower_char s.

Fixpoint lstrip_by (p : char -> bool) (s : str) : str :=
  match s with
  | [] => []
  | c :: r => if p c then lstrip_by p r else s
  end.

Definition rstrip_by (p : char -> bool) (s : str) : str :=
  rev (lstrip_by p (rev s)).

Definition strip_by (p : char -> bool) (s : str) : str :=
  rstrip_by p (lstrip_by p s).

(** [s.strip()] *)
Definition strip (s : str) : str := strip_by isspace s.

Definition mem_char (cs : str) (c : char) : bool := existsb (N.eqb c) cs.

(** [s.strip(cs)] *)
Definition strip_chars (cs : str) (s : str) : str := strip_by (mem_char cs) s.

Fixpoint startswith (s p : str) : bool :=
  match p, s with
  | [], _ => true
  | _ :: _, [] => false
  | x :: p', c :: s' => (c =? x)%N && startswith s' p'
  end.

Definition endswith (s p : str) : bool := startswith (rev s) (rev p).

(** [p in s] *)
Fixpoint contains (s p : str) : bool :=
  startswith s p || match s with [] => false | _ :: r => contains r p end.

Fixpoint take_while (p : char -> bool) (s : str) : str :=
  match s with
  | [] => []
  | c :: r => if p c then c :: take_while p r else []
  end.

Fixpoint drop_while (p : char -> bool) (s : str) : str :=
  match s with
  | [] => []
  | c :: r => if p c then drop_while p r else s
  end.

(** ** Regular expressions

    The two patterns of the source are [(?i)\bKW\s+([^\s]+)] with [KW] one of
    [bearer] and [token]; [re_search kw s] is [re.search] of that pattern in
    [s], giving [group(1)] of the leftmost match. *)

(** [\w] of a [str] pattern *)
Definition is_word (c : char) : bool := isalnum c || (c =? ch "_")%N.

(** [\b] at a position: the characters on its two sides differ in being word
    characters; a missing side counts as not a word character. *)
Definition at_boundary (prev : option char) (s : str) : bool :=
  xorb (match prev with Some p => is_word p | None => false end)
       (match s with c :: _ => is_word c | [] => false end).

(** The lowercase [re] compares with under [(?i)]: one code point. *)
Definition tolower (c : char) : char := hd c (lower_char c).

(** A lowercase literal of the pattern matched under [(?i)]; the text after
    it on success. *)
Fixpoint match_literal_ci (kw s : str) : option str :=
  match kw, s with
  | [], _ => Some s
  | _ :: _, [] => None
  | x :: kw', c :: s' => if (tolower c =? x)%N then match_literal_ci kw' s' else None
  end.

(** [\s+([^\s]+)]: both repetitions are greedy, and giving back whitespace
    leaves the group facing a whitespace character, so the match exists
    exactly when a non-empty run of whitespace is followed by a character
    that is not one; the group is the longest run of such characters. *)
Definition match_spaces_group (s : str) : option str :=
  match take_while isspace s with
  | [] => None
  | _ :: _ =>
      match take_while (fun c => negb (isspace c)) (drop_while isspace s) with
      | [] => None
      | g => Some g
      end
  end.

Definition match_here (kw : str) (prev : option char) (s : str) : option str :=
  if at_boundary prev s then
    match match_literal_ci kw s with
    | Some r => match_spaces_group r
    | None => None
    end
  else None.

Fixpoint search_from (kw : str) (prev : option char) (s : str) : option str :=
  match match_here kw prev s with
  | Some g => Some g
  | None =>
      match s with
      | [] => None
      | c :: r => search_from kw (Some c) r
      end
  end.

Definition re_search (kw : str) (s : str) : option str := search_from kw None s.

(** ** JSON documents: [json.loads]

    The decoder of the standard library (its [scanstring], number matcher,
    object and array parsers and [scan_once]), with [strict] strings.  A
    number keeps its lexeme; the source never looks at a number. *)

Inductive json : Type :=
| JNull
| JBool (b : bool)
| JNumber (lexeme : str)
| JString (s : str)
| JArray (xs : list json)
| JObject (members : list (str * json)).

(** The outcome of one parser on a text: the value and the text left, an
    error (the decoder raises), or a recursion budget that ran out. *)
Inductive parsed (A : Type) : Type :=
| Parsed (a : A) (rest : str)
| ParseError
| OutOfFuel.
Arguments ParseError {A}.
Arguments OutOfFuel {A}.

(** The whitespace of a document: space, tab, line feed, carriage return. *)
Definition json_ws (c : char) : bool :=
  ((c =? 0x20) || (c =? 0x09) || (c =? 0x0A) || (c =? 0x0D))%N.

Definition skip_ws (s : str) : str := drop_while json_ws s.

Definition hex_digit (c : char) : option N :=
  (if (0x30 <=? c) && (c <=? 0x39) then Some (c - 0x30)
   else if (0x61 <=? c) && (c <=? 0x66) then Some (c - 0x61 + 10)
   else if (0x41 <=? c) && (c <=? 0x46) then Some (c - 0x41 + 10)
   else None)%N.

Definition hex4 (a b c d : char) : option N :=
  match hex_digit a, hex_digit b, hex_digit c, hex_digit d with
  | Some x, Some y, Some z, Some w => Some (((x * 16 + y) * 16 + z) * 16 + w)%N
  | _, _, _, _ => None
  end.

(** The one-letter escapes of a string. *)
Definition simple_escape (c : char) : option char :=
  (if c =? dquote then Some c
   else if c =? ch "\" then Some c
   else if c =? ch "/" then Some c
   else if c =? ch "b" then Some 0x08
   else if c =? ch "f" then Some 0x0C
   else if c =? ch "n" then Some 0x0A
   else if c =? ch "r" then Some 0x0D
   else if c =? ch "t" then Some 0x09
   else None)%N.

(** The body of a string after its opening quote, up to the closing one.
    Every decoded code point is paired with whether a [\uXXXX] escape wrote
    it: two such escapes in a row are adjacent in the text, which is when the
    decoder joins a surrogate pair. *)
Fixpoint scan_items (s : str) : parsed (list (char * bool)) :=
  match s with
  | [] => ParseError
  | c :: r =>
      if (c =? dquote)%N then Parsed [] r
      else if (c =? ch "\")%N then
        match r with
        | [] => ParseError
        | e :: r1 =>
            if (e =? ch "u")%N then
              match r1 with
              | h1 :: h2 :: h3 :: h4 :: r2 =>
                  match hex4 h1 h2 h3 h4 with
                  | Some u =>
                      match scan_items r2 with
                      | Parsed items rest => Parsed ((u, true) :: items) rest
                      | other => other
                      end
                  | None => ParseError
                  end
              | _ => ParseError
              end
            else
              match simple_escape e with
              | Some v =>
                  match scan_items r1 with
                  | Parsed items rest => Parsed ((v, false) :: items) rest
                  | other => other
                  end
              | None => ParseError
              end
        end
      else if (c <=? 0x1F)%N then ParseError
      else
        match scan_items r with
        | Parsed items rest => Parsed ((c, false) :: items) rest
        | other => other
        end
  end.

Definition is_high_surrogate (c : char) : bool := ((0xD800 <=? c) && (c <=? 0xDBFF))%N.
Definition is_low_surrogate (c : char) : bool := ((0xDC00 <=? c) && (c <=? 0xDFFF))%N.

Definition join_surrogates_pair (hi lo : char) : char :=
  (0x10000 + (((hi - 0xD800) * 0x400) + (lo - 0xDC00)))%N.

Fixpoint join_surrogates (items : list (char * bool)) : str :=
  match items with
  | [] => []
  | (c, esc) :: rest =>
      match rest with
      | (c2, true) :: rest2 =>
          if esc && is_high_surrogate c && is_low_surrogate c2
          then join_surrogates_pair c c2 :: join_surrogates rest2
          else c :: join_surrogates rest
      | _ => c :: join_surrogates rest
      end
  end.

(** [scanstring], called after the opening quote. *)
Definition scanstring (s : str) : parsed str :=
  match scan_items s with
  | Parsed items rest => Parsed (join_surrogates items) rest
  | ParseError => ParseError
  | OutOfFuel => OutOfFuel
  end.

Definition is_digit (c : char) : bool := ((0x30 <=? c) && (c <=? 0x39))%N.

(** The text left after an optional fraction [\.[0-9]+]. *)
Definition skip_fraction (s : str) : str :=
  match s with
  | c :: r =>
      if (c =? ch ".")%N then
        match take_while is_digit r with
        | [] => s
        | _ :: _ => drop_while is_digit r
        end
      else s
  | [] => s
  end.

(** The text left after an optional exponent [[eE][-+]?[0-9]+]. *)
Definition skip_exponent (s : str) : str :=
  match s with
  | c :: r =>
      if (c =? ch "e")%N || (c =? ch "E")%N then
        let r1 := match r with
                  | sg :: r' => if (sg =? ch "-")%N || (sg =? ch "+")%N then r' else r
                  | [] => r
                  end in
        match take_while is_digit r1 with
        | [] => s
        | _ :: _ => drop_while is_digit r1
        end
      else s
  | [] => s
  end.

(** The text left after the integer part, an optional minus sign and then
    either a single zero or a digit from one to nine with any digits behind
    it, when there is one. *)
Definition skip_integer (s : str) : option str :=
  let body := match s with
              | c :: r => if (c =? ch "-")%N then r else s
              | [] => s
              end in
  match body with
  | d :: r =>
      if (d =? ch "0")%N then Some r
      else if is_digit d then Some (drop_while is_digit r)
      else None
  | [] => None
  end.

(** The number at the start of a text: its lexeme and the text left. *)
Definition match_number (s : str) : parsed json :=
  match skip_integer s with
  | Some r =>
      let rest := skip_exponent (skip_fraction r) in
      Parsed (JNumber (firstn (length s - length rest) s)) rest
  | None => ParseError
  end.

Definition literal (name : string) (v : json) (s : str) : parsed json :=
  if startswith s name then Parsed v (skipn (length (str_of name)) s) else ParseError.

(** [scan_once] and the two loops it enters.  [parse_members] runs after the
    opening brace and the whitespace behind it, or after a comma and the
    whitespace behind it; [parse_elements] runs in front of an element. *)
Fixpoint scan_once (fuel : nat) (s : str) : parsed json :=
  match fuel with
  | O => OutOfFuel
  | S fuel' =>
      match s with
      | [] => ParseError
      | c :: r =>
          if (c =? dquote)%N then
            match scanstring r with
            | Parsed v rest => Parsed (JString v) rest
            | ParseError => ParseError
            | OutOfFuel => OutOfFuel
            end
          else if (c =? ch "{")%N then
            match skip_ws r with
            | c1 :: r1 =>
                if (c1 =? ch "}")%N then Parsed (JObject []) r1
                else
                  match parse_members fuel' (c1 :: r1) with
                  | Parsed kvs rest => Parsed (JObject kvs) rest
                  | ParseError => ParseError
                  | OutOfFuel => OutOfFuel
                  end
            | [] => ParseError
            end
          else if (c =? ch "[")%N then
            match skip_ws r with
            | c1 :: r1 =>
                if (c1 =? ch "]")%N then Parsed (JArray []) r1
                else
                  match parse_elements fuel' (c1 :: r1) with
                  | Parsed xs rest => Parsed (JArray xs) rest
                  | ParseError => ParseError
                  | OutOfFuel => OutOfFuel
                  end
            | [] => ParseError
            end
          else if (c =? ch "n")%N && startswith s "null" then literal "null" JNull s
          else if (c =? ch "t")%N && startswith s "true" then literal "true" (JBool true) s
          else if (c =? ch "f")%N && startswith s "false" then literal "false" (JBool false) s
          else if (c =? ch "N")%N && startswith s "NaN" then literal "NaN" (JNumber "NaN") s
          else if (c =? ch "I")%N && startswith s "Infinity"
               then literal "Infinity" (JNumber "Infinity") s
          else if (c =? ch "-")%N && startswith s "-Infinity"
               then literal "-Infinity" (JNumber "-Infinity") s
          else match_number s
      end
  end

with parse_members (fuel : nat) (s : str) : parsed (list (str * json)) :=
  match fuel with
  | O => OutOfFuel
  | S fuel' =>
      match s with
      | c :: r =>
          if (c =? dquote)%N then
            match scanstring r with
            | Parsed key r1 =>
                match skip_ws r1 with
                | colon :: r2 =>
                    if (colon =? ch ":")%N then
                      match scan_once fuel' (skip_ws r2) with
                      | Parsed v r3 =>
                          match skip_ws r3 with
                          | d :: r4 =>
                              if (d =? ch "}")%N then Parsed [(key, v)] r4
                              else if (d =? ch ",")%N then
                                match parse_members fuel' (skip_ws r4) with
                                | Parsed kvs rest => Parsed ((key, v) :: kvs) rest
                                | other => other
                                end
                              else ParseError
                          | [] => ParseError
                          end
                      | ParseError => ParseError
                      | OutOfFuel => OutOfFuel
                      end
                    else ParseError
                | [] => ParseError
                end
            | ParseError => ParseError
            | OutOfFuel => OutOfFuel
            end
          else ParseError
      | [] => ParseError
      end
  end

with parse_elements (fuel : nat) (s : str) : parsed (list json) :=
  match fuel with
  | O => OutOfFuel
  | S fuel' =>
      match scan_once fuel' s with
      | Parsed v r1 =>
          match skip_ws r1 with
          | d :: r2 =>
              if (d =? ch "]")%N then Parsed [v] r2
              else if (d =? ch ",")%N then
                match parse_elements fuel' (skip_ws r2) with
                | Parsed xs rest => Parsed (v :: xs) rest
                | other => other
                end
              else ParseError
          | [] => ParseError
          end
      | ParseError => ParseError
      | OutOfFuel => OutOfFuel
      end
  end.

(** [json.loads]: one value between optional whitespace and nothing else.
    A call of [scan_once] consumes a character and enters a loop once at
    most, so a budget above twice the length of the text is never exhausted
    ([json_loads_budget] below). *)
Definition json_loads_fuel (fuel : nat) (s : str) : parsed json :=
  match scan_once fuel (skip_ws s) with
  | Parsed v rest =>
      match skip_ws rest with
      | [] => Parsed v []
      | _ :: _ => ParseError
      end
  | other => other
  end.

Definition json_loads (s : str) : option json :=
  match json_loads_fuel (S (2 * length s)) s with
  | Parsed v _ => Some v
  | _ => None
  end.

(** [dict.get] on the members of an object read left to right: a later
    member replaces an earlier one of the same key. *)
Fixpoint dict_get (key : str) (members : list (str * json)) : option json :=
  match members with
  | [] => None
  | (k, v) :: rest =>
      match dict_get key rest with
      | Some v' => Some v'
      | None => if str_eqb k key then Some v else None
      end
  end.

(** ** The token normaliser *)

Definition quotes : str := [dquote; squote].

(** The loop over the keys of a pasted JSON object: the first key whose
    value is a [str] that is not blank gives the working string. *)
Fixpoint first_token_value (keys : list str) (members : list (str * json)) : option str :=
  match keys with
  | [] => None
  | key :: keys' =>
      match dict_get key members with
      | Some (JString val) =>
          match strip val with
          | [] => first_token_value keys' members
          | v => Some v
          end
      | _ => first_token_value keys' members
      end
  end.

Definition token_keys : list str := ["token" : str; "access_token" : str; "accessToken" : str].

(** The [try] block of the source.  A document that does not parse raises
    inside it, and so would [obj.get] on a value that is not an object; the
    handler passes, and the working string stays as it was. *)
Definition unwrap_json (s : str) : str :=
  if startswith s "{" && endswith s "}" then
    match json_loads s with
    | Some (JObject members) =>
        match first_token_value token_keys members with
        | Some v => v
        | None => s
        end
    | _ => s
    end
  else s.

(** The loop over the two plain prefixes, entered with [lowered = s.lower()]. *)
Fixpoint strip_prefix (prefixes : list str) (lowered s : str) : str :=
  match prefixes with
  | [] => s
  | prefix :: rest =>
      if startswith lowered prefix then strip (skipn (length prefix) s)
      else strip_prefix rest lowered s
  end.

Definition plain_prefixes : list str := ["bearer " : str; "token " : str].

Definition _normalize_token (raw : str) : str :=
  let s := strip raw in
  match s with
  | [] => []
  | _ :: _ =>
      let s := unwrap_json s in
      match re_search "bearer" s with
      | Some g => strip_chars quotes (strip g)
      | None =>
          match re_search "token" s, contains (lower s) "authorization" with
          | Some g, true => strip_chars quotes (strip g)
          | _, _ =>
              let lowered := lower s in
              let s := strip_prefix plain_prefixes lowered s in
              strip_chars quotes (strip s)
          end
      end
  end.

(** ** Values of the account listing *)

(** The values a decoded response is made of.  The items of a mapping are in
    insertion order, and a later item replaces an earlier one of the same
    key. *)
Inductive pyval : Type :=
| PyNone
| PyBool (b : bool)
| PyInt (z : Z)
| PyStr (s : str)
| PyList (xs : list pyval)
| PyDict (items : list (str * pyval)).

(** [bool(v)] *)
Definition truthy (v : pyval) : bool :=
  match v with
  | PyNone => false
  | PyBool b => b
  | PyInt z => negb (z =? 0)%Z
  | PyStr s => match s with [] => false | _ :: _ => true end
  | PyList xs => match xs with [] => false | _ :: _ => true end
  | PyDict items => match items with [] => false | _ :: _ => true end
  end.

(** [isinstance(v, dict)] *)
Definition is_dict (v : pyval) : bool :=
  match v with PyDict _ => true | _ => false end.

Fixpoint items_get (key : str) (items : list (str * pyval)) : option pyval :=
  match items with
  | [] => None
  | (k, v) :: rest =>
      match items_get key rest with
      | Some v' => Some v'
      | None => if str_eqb k key then Some v else None
      end
  end.

(** [v.get(key, default)]; [None] where [v] has no [get]. *)
Definition py_get (v : pyval) (key : str) (default : pyval) : option pyval :=
  match v with
  | PyDict items =>
      match items_get key items with
      | Some x => Some x
      | None => Some default
      end
  | _ => None
  end.

(** [len(v)]; [None] where [len] raises [TypeError]. *)
Definition py_len (v : pyval) : option nat :=
  match v with
  | PyStr s => Some (length s)
  | PyList xs => Some (length xs)
  | PyDict items => Some (length (nodup (list_eq_dec N.eq_dec) (map fst items)))
  | PyNone | PyBool _ | PyInt _ => None
  end.

(** ** Effects

    A run of the script talks to its collaborators: the console, the
    environment loader, the API client and the secure store.  Every such
    call is an [event] of the run, in order; what the collaborators answer is
    the [world] the run is given.

    Every exception here is an instance of [Exception], the class every
    handler of the script names but one; [KeyboardInterrupt] and the like are
    not modelled. *)

Inductive exn : Type :=
| RequireMFAException
| RuntimeError (response : pyval)
| TypeError
| OtherError (name : string).

(** A client object: [MonarchMoney()] or [MonarchMoney(token=...)]. *)
Inductive handle : Type :=
| Client (token : option str).

Inductive AuthMethod : Type := password | token.

Inductive prompt : Type :=
| AskHasMfa | AskProceed | AskChoice | AskEmail | AskPassword | AskMfaCode | AskToken.

(** What the script prints; lines printed in one go count as one. *)
Inductive message : Type :=
| MsgBanner
| MsgVersion (v : str)
| MsgVersionFailed (e : exn)
| MsgCleared
| MsgSecurityCheck
| MsgMfaRecommendation
| MsgCancelled
| MsgLoginMethods
| MsgStartingLogin
| MsgLoginSuccessful
| MsgMfaRequired
| MsgMfaSuccessful
| MsgSsoInstructions
| MsgNoToken
| MsgTestingConnection
| MsgCallingGetAccounts
| MsgFoundAccounts (n : nat)
| MsgConnectionTestFailed (e : exn)
| MsgErrorType (e : exn)
| MsgTokenLoginFailed
| MsgAttemptingCleanup
| MsgClearedLocal
| MsgPleaseRerun
| MsgSavingSession
| MsgSessionSaved
| MsgCouldNotSave (e : exn)
| MsgMayNeedRerun
| MsgSetupComplete
| MsgLoginFailed (e : exn)
| MsgCheckCredentials.

Inductive event : Type :=
| EPrint (m : message)
| ELoadDotenv
| EImportMonarchmoney
| EDeleteToken
| EInput (p : prompt)
| EConstruct (mm : handle)
| ELogin (mm : handle) (email pass : str) (use_saved_session save_session : bool)
| EMultiFactorAuthenticate (mm : handle) (email pass code : str)
| ESaveSession (mm : handle)
| EGetAccounts (mm : handle)
| EPathExists
| ERmtree
| ESaveAuthenticatedSession (mm : handle).

Inductive outcome (A : Type) : Type :=
| Returns (a : A)
| Raises (e : exn).
Arguments Raises {A}.

Record world : Type := {
  load_dotenv : outcome unit;
  monarchmoney_version : outcome str;
  delete_token : outcome unit;
  input : prompt -> outcome str;
  login : handle -> str -> str -> outcome unit;
  multi_factor_authenticate : handle -> str -> str -> str -> outcome unit;
  save_session : handle -> outcome unit;
  get_accounts : handle -> outcome pyval;
  path_exists : bool;
  rmtree : outcome unit;
  save_authenticated_session : handle -> outcome unit
}.

(** How a block of statements ends: it falls off its end with a value, it
    executes [return], or it raises. *)
Inductive completion (A : Type) : Type :=
| Normal (a : A)
| Returned
| Raised (e : exn).
Arguments Returned {A}.
Arguments Raised {A}.

Definition M (A : Type) : Type := (completion A * list event)%type.

Definition ret {A} (a : A) : M A := (Normal a, []).

Definition bind {A B} (m : M A) (k : A -> M B) : M B :=
  match m with
  | (Normal a, t) => let (c, t') := k a in (c, t ++ t')
  | (Returned, t) => (Returned, t)
  | (Raised e, t) => (Raised e, t)
  end.

Notation "x <- m ; k" := (bind m (fun x => k))
  (at level 61, m at next level, right associativity).
Notation "m ;; k" := (bind m (fun _ => k))
  (at level 61, right associativity).

Definition py_return {A} : M A := (Returned, []).
Definition raise {A} (e : exn) : M A := (Raised e, []).
Definition print (m : message) : M unit := (Normal tt, [EPrint m]).

(** A call of a collaborator: the event, and the answer of the world. *)
Definition call {A} (ev : event) (o : outcome A) : M A :=
  (match o with Returns a => Normal a | Raises e => Raised e end, [ev]).

(** [try: m  except Exception as e: h e] *)
Definition try_except {A} (m : M A) (h : exn -> M A) : M A :=
  match m with
  | (Raised e, t) => let (c, t') := h e in (c, t ++ t')
  | _ => m
  end.

(** [try: m  except RequireMFAException: h] *)
Definition try_except_mfa {A} (m : M A) (h : M A) : M A :=
  match m with
  | (Raised RequireMFAException, t) => let (c, t') := h in (c, t ++ t')
  | _ => m
  end.

(** ** The script *)

Definition says_yes (answer : str) : bool :=
  existsb (str_eqb answer) ["y" : str; "yes" : str].

Definition _choose_auth_method (w : world) : M AuthMethod :=
  print MsgLoginMethods ;;
  choice <- call (EInput AskChoice) (input w AskChoice) ;
  let choice := lower (strip choice) in
  let says_token :=
    existsb (str_eqb choice)
      ["2" : str; "token" : str; "sso" : str; "apple" : str; "google" : str] in
  ret (if says_token then token else password).

Definition _print_sso_token_instructions : M unit := print MsgSsoInstructions.

Definition _test_connection (w : world) (mm : handle) : M nat :=
  print MsgCallingGetAccounts ;;
  accounts <- call (EGetAccounts mm) (get_accounts w mm) ;
  if negb (truthy accounts) || negb (is_dict accounts) then
    raise (RuntimeError accounts)
  else
    match py_get accounts "accounts" (PyList []) with
    | Some listing =>
        match py_len listing with
        | Some n => ret n
        | None => raise TypeError
        end
    | None => raise (OtherError "AttributeError")
    end.

(** The blocks of [main], in the order of the source. *)

(** The first [try] block: the version of the client library. *)
Definition check_version (w : world) : M unit :=
  try_except
    (v <- call EImportMonarchmoney (monarchmoney_version w) ;
     print (MsgVersion v))
    (fun e => print (MsgVersionFailed e)).

(** The question about MFA, and the confirmation asked of a user who has
    none. *)
Definition security_check (w : world) : M unit :=
  print MsgSecurityCheck ;;
  has_mfa <- call (EInput AskHasMfa) (input w AskHasMfa) ;
  let has_mfa := lower (strip has_mfa) in
  if negb (says_yes has_mfa) then
    print MsgMfaRecommendation ;;
    proceed <- call (EInput AskProceed) (input w AskProceed) ;
    let proceed := lower (strip proceed) in
    if negb (says_yes proceed) then print MsgCancelled ;; py_return
    else ret tt
  else ret tt.

(** From the head of the outer [try] block to the choice of a method. *)
Definition preliminaries (w : world) : M AuthMethod :=
  call EDeleteToken (delete_token w) ;;
  print MsgCleared ;;
  security_check w ;;
  auth_method <- _choose_auth_method w ;
  print MsgStartingLogin ;;
  ret auth_method.

(** The password branch: the client it leaves in [mm]. *)
Definition password_login (w : world) : M handle :=
  email <- call (EInput AskEmail) (input w AskEmail) ;
  pass <- call (EInput AskPassword) (input w AskPassword) ;
  let mm := Client None in
  call (EConstruct mm) (Returns tt) ;;
  try_except_mfa
    (call (ELogin mm email pass false true) (login w mm email pass) ;;
     print MsgLoginSuccessful)
    (print MsgMfaRequired ;;
     mfa_code <- call (EInput AskMfaCode) (input w AskMfaCode) ;
     call (EMultiFactorAuthenticate mm email pass mfa_code)
          (multi_factor_authenticate w mm email pass mfa_code) ;;
     print MsgMfaSuccessful ;;
     call (ESaveSession mm) (save_session w mm)) ;;
  ret mm.

(** The token branch. *)
Definition token_login (w : world) : M handle :=
  _print_sso_token_instructions ;;
  raw_token <- call (EInput AskToken) (input w AskToken) ;
  let tok := _normalize_token raw_token in
  match tok with
  | [] => print MsgNoToken ;; py_return
  | _ :: _ =>
      let mm := Client (Some tok) in
      call (EConstruct mm) (Returns tt) ;;
      ret mm
  end.

Definition acquire (w : world) (auth_method : AuthMethod) : M handle :=
  match auth_method with
  | password => password_login w
  | token => token_login w
  end.

(** The handler of a failed connection test. *)
Definition connection_test_failed (w : world) (auth_method : AuthMethod)
    (test_error : exn) : M unit :=
  print (MsgConnectionTestFailed test_error) ;;
  print (MsgErrorType test_error) ;;
  match auth_method with
  | token => print MsgTokenLoginFailed ;; py_return
  | password =>
      exists_mm <- call EPathExists (Returns (path_exists w)) ;
      (if exists_mm : bool then
         print MsgAttemptingCleanup ;;
         try_except
           (call ERmtree (rmtree w) ;; print MsgClearedLocal)
           (fun _ => ret tt)
       else ret tt) ;;
      print MsgPleaseRerun ;;
      py_return
  end.

(** The connection test and its handler. *)
Definition validate (w : world) (auth_method : AuthMethod) (mm : handle) : M unit :=
  print MsgTestingConnection ;;
  try_except
    (account_count <- _test_connection w mm ;
     print (MsgFoundAccounts account_count))
    (connection_test_failed w auth_method).

(** The hand-over to the keyring, and the closing lines. *)
Definition publish (w : world) (mm : handle) : M unit :=
  try_except
    (print MsgSavingSession ;;
     call (ESaveAuthenticatedSession mm) (save_authenticated_session w mm) ;;
     print MsgSessionSaved)
    (fun save_error =>
       print (MsgCouldNotSave save_error) ;;
       print MsgMayNeedRerun) ;;
  print MsgSetupComplete.

(** The statements of the outer [try] block. *)
Definition main_body (w : world) : M unit :=
  auth_method <- preliminaries w ;
  mm <- acquire w auth_method ;
  validate w auth_method mm ;;
  publish w mm.

(** The handler of the outer [try] block. *)
Definition login_failed (e : exn) : M unit :=
  print (MsgLoginFailed e) ;;
  print MsgCheckCredentials ;;
  print (MsgErrorType e).

(** The statements in front of the outer [try] block. *)
Definition prelude (w : world) : M unit :=
  call ELoadDotenv (load_dotenv w) ;;
  print MsgBanner ;;
  check_version w.

Definition main (w : world) : M unit :=
  prelude w ;;
  try_except (main_body w) login_failed.


Definition trace {A} (m : M A) : list event := snd m.

Unset Implicit Arguments.

(** ** Vocabulary of the statements *)

(** No character of [s] at its head, respectively at its end, satisfies
    [p]. *)
Definition head_free (p : char -> bool) (s : str) : Prop :=
  match s with
  | [] => True
  | c :: _ => p c = false
  end.

Definition end_free (p : char -> bool) (s : str) : Prop := head_free p (rev s).

Definition nonspace (c : char) : bool := negb (isspace c).

(** The character in front of the position reached after reading [a]. *)
Definition prev_after (prev : option char) (a : str) : option char :=
  match rev a with
  | c :: _ => Some c
  | [] => prev
  end.

(** The character in front of a position is not a word character, or the
    position is the start of the text. *)
Definition boundary_before (a : str) : Prop :=
  match prev_after None a with
  | Some c => is_word c = false
  | None => True
  end.

(** The rules applied to the working string. *)
Definition rules (s : str) : str :=
  match re_search "bearer" s with
  | Some g => strip_chars quotes (strip g)
  | None =>
      match re_search "token" s, contains (lower s) "authorization" with
      | Some g, true => strip_chars quotes (strip g)
      | _, _ => strip_chars quotes (strip (strip_prefix plain_prefixes (lower s) s))
      end
  end.

(** The text in quotes, with every apostrophe read as a double quote. *)
Definition dq (s : string) : str :=
  map (fun c => if (c =? squote)%N then dquote else c) (str_of s).

(** A token is clean when it has no whitespace in it, no quote character at
    either end and no opening brace at its head. *)
Definition clean (t : str) : Prop :=
  forallb nonspace t = true
  /\ head_free (mem_char quotes) t /\ end_free (mem_char quotes) t
  /\ startswith t "{" = false.

Definition separator (c : char) : bool := isspace c || mem_char quotes c.

(** [emits p m]: every event of the run [m] satisfies [p]. *)
Definition emits {A} (p : event -> bool) (m : M A) : Prop :=
  forallb p (trace m) = true.

(** The block of [main] a call belongs to; lines are printed by all. *)
Inductive block : Type := Prelude | Preliminaries | Acquire | Validate | Publish.

Definition block_eqb (a b : block) : bool :=
  match a, b with
  | Prelude, Prelude | Preliminaries, Preliminaries | Acquire, Acquire
  | Validate, Validate | Publish, Publish => true
  | _, _ => false
  end.

Definition emitter (ev : event) : option block :=
  match ev with
  | EPrint _ => None
  | ELoadDotenv | EImportMonarchmoney => Some Prelude
  | EDeleteToken => Some Preliminaries
  | EInput (AskHasMfa | AskProceed | AskChoice) => Some Preliminaries
  | EInput (AskEmail | AskPassword | AskMfaCode | AskToken) => Some Acquire
  | EConstruct _ | ELogin _ _ _ _ _ | EMultiFactorAuthenticate _ _ _ _
  | ESaveSession _ => Some Acquire
  | EGetAccounts _ | EPathExists | ERmtree => Some Validate
  | ESaveAuthenticatedSession _ => Some Publish
  end.

Definition from (b : block) (ev : event) : bool :=
  match emitter ev with
  | None => true
  | Some b' => block_eqb b b'
  end.

(** Collaborators that answer the same whatever they are asked. *)
Definition scripted (dotenv : outcome unit) (answers : prompt -> outcome str)
    (login_result mfa_result : outcome unit) (accounts : outcome pyval)
    (keyring : outcome unit) : world :=
  {| load_dotenv := dotenv;
     monarchmoney_version := Returns ("0.1.15" : str);
     delete_token := Returns tt;
     input := answers;
     login := fun _ _ _ => login_result;
     multi_factor_authenticate := fun _ _ _ _ => mfa_result;
     save_session := fun _ => Returns tt;
     get_accounts := fun _ => accounts;
     path_exists := false;
     rmtree := Returns tt;
     save_authenticated_session := fun _ => keyring |}.

(** A user with MFA who takes the password method. *)
Definition password_user (p : prompt) : outcome str :=
  Returns (match p with
           | AskHasMfa => "y"
           | AskProceed => ""
           | AskChoice => "1"
           | AskEmail => "user@example.com"
           | AskPassword => "hunter2"
           | AskMfaCode => "000000"
           | AskToken => ""
           end : str).

(** A user with MFA who takes the token method and pastes [raw]. *)
Definition token_user (raw : str) (p : prompt) : outcome str :=
  Returns (match p with
           | AskHasMfa => "yes" : str
           | AskChoice => "2" : str
           | AskToken => raw
           | _ => [] 
           end).

Definition two_accounts : pyval :=
  PyDict [("accounts" : str, PyList [PyInt 1; PyInt 2])].

Definition world_direct : world :=
  scripted (Returns tt) password_user (Returns tt) (Returns tt)
           (Returns two_accounts) (Returns tt).

Definition world_mfa : world :=
  scripted (Returns tt) password_user (Raises RequireMFAException) (Returns tt)
           (Returns two_accounts) (Returns tt).


Definition world_keyring_fails : world :=
  scripted (Returns tt) password_user (Returns tt) (Returns tt)
           (Returns two_accounts) (Raises (OtherError "KeyringError")).

Definition world_blank_token : world :=
  scripted (Returns tt) (token_user "   ") (Returns tt) (Returns tt)
           (Returns two_accounts) (Returns tt).

Definition world_empty_mapping : world :=
  scripted (Returns tt) password_user (Returns tt) (Returns tt)
           (Returns (PyDict [])) (Returns tt).

(** What follows the acquisition of a client inside the outer [try] block. *)
Definition finish (w : world) (auth_method : AuthMethod) (mm : handle) : M unit :=
  validate w auth_method mm ;; publish w mm.

Definition after_acquire (ev : event) : bool :=
  match emitter ev with
  | None | Some Validate | Some Publish => true
  | _ => false
  end.

(** The calls that try to authenticate: building a client, logging in, the
    multi-factor exchange. *)
Definition is_auth_attempt (ev : event) : bool :=
  match ev with
  | EConstruct _ | ELogin _ _ _ _ _ | EMultiFactorAuthenticate _ _ _ _ => true
  | _ => false
  end.

(** The calls made on or for a client object, and the hand-over to the
    keyring. *)
Definition is_client_call (ev : event) : bool :=
  match ev with
  | EConstruct _ | ELogin _ _ _ _ _ | EMultiFactorAuthenticate _ _ _ _
  | ESaveSession _ | EGetAccounts _ | ESaveAuthenticatedSession _ => true
  | _ => false
  end.

Definition no_client_call (ev : event) : bool := negb (is_client_call ev).

Definition asks_token (ev : event) : bool :=
  match ev with EInput AskToken => true | _ => false end.

Definition is_save_session (ev : event) : bool :=
  match ev with ESaveSession _ => true | _ => false end.

Definition is_get_accounts (ev : event) : bool :=
  match ev with EGetAccounts _ => true | _ => false end.

(** The explicit calls of [mm.save_session()] in a run. *)
Definition explicit_saves (t : list event) : nat :=
  length (filter is_save_session t).

(** * Properties *)

(** ** Characters *)

Ltac N_bools :=
  repeat match goal with
    | H : (_ && _) = true |- _ => apply andb_prop in H; destruct H
    | H : (_ || _) = false |- _ => apply orb_false_iff in H; destruct H
    | H : negb _ = true |- _ => apply negb_true_iff in H
    | H : negb _ = false |- _ => apply negb_false_iff in H
    | H : (_ <=? _)%N = true |- _ => apply N.leb_le in H
    | H : (_ <=? _)%N = false |- _ => apply N.leb_gt in H
    | H : (_ =? _)%N = true |- _ => apply N.eqb_eq in H
    | H : (_ =? _)%N = false |- _ => apply N.eqb_neq in H
    | H : (_ || _) = true |- _ => apply orb_prop in H; destruct H
    | H : (_ && _) = false |- _ => apply andb_false_iff in H; destruct H
    end.

Lemma isspace_not_word c : isspace c = true -> is_word c = false.
Proof.
  intros Hs. destruct (is_word c) eqn:Hw; [exfalso | reflexivity].
  unfold isspace in Hs. unfold is_word, isalnum, ch in Hw. simpl in Hw.
  N_bools; lia.
Qed.

Lemma quote_not_word c : mem_char quotes c = true -> is_word c = false.
Proof.
  unfold mem_char, quotes, dquote, squote. simpl. intros H.
  N_bools; subst; try reflexivity; discriminate.
Qed.

Lemma quote_not_space c : mem_char quotes c = true -> isspace c = false.
Proof.
  unfold mem_char, quotes, dquote, squote. simpl. intros H.
  N_bools; subst; try reflexivity; discriminate.
Qed.

(** A character that [re] lowers to a Basic Latin letter is that letter, its
    capital, for [k] the Kelvin sign, or for [i] the dotted capital I. *)
Lemma tolower_letter c x :
  (0x61 <= x <= 0x7A)%N -> tolower c = x ->
  c = x \/ c = (x - 32)%N \/ (x = 0x6B /\ c = 0x212A)%N
  \/ (x = 0x69 /\ c = 0x0130)%N.
Proof.
  intros Hx. unfold tolower, lower_char.
  repeat match goal with
         | |- context [if ?b then _ else _] => destruct b eqn:?
         end; simpl; intros <-; N_bools; lia.
Qed.

Lemma tolower_letter_word c x :
  (0x61 <= x <= 0x7A)%N -> x <> 0x6B%N -> x <> 0x69%N -> tolower c = x ->
  is_word c = true.
Proof.
  intros Hx Hk Hi Hc.
  destruct (tolower_letter c x Hx Hc) as [-> | [-> | [[? _] | [? _]]]];
    try contradiction; unfold is_word, isalnum.
  - assert (H : ((0x61 <=? x) && (x <=? 0x7A))%N = true).
    { apply andb_true_intro. split; apply N.leb_le; lia. }
    rewrite H. now rewrite !orb_true_r.
  - assert (H : ((0x41 <=? x - 32) && (x - 32 <=? 0x5A))%N = true).
    { apply andb_true_intro. split; apply N.leb_le; lia. }
    rewrite H. now rewrite !orb_true_r.
Qed.

Lemma tolower_space c : tolower c = 0x20%N -> c = 0x20%N.
Proof.
  unfold tolower, lower_char.
  repeat match goal with
         | |- context [if ?b then _ else _] => destruct b eqn:?
         end; simpl; intros ?; N_bools; lia.
Qed.

(** Apart from the dotted capital I, lowering a character gives exactly the
    character [re] compares with. *)
Lemma lower_char_tolower c : c <> 0x0130%N -> lower_char c = [tolower c].
Proof.
  intros Hc. unfold tolower, lower_char.
  repeat match goal with
         | |- context [if ?b then _ else _] => destruct b eqn:?
         end; simpl; try reflexivity.
  all: N_bools; contradiction.
Qed.

Lemma lower_char_space c : In 0x20%N (lower_char c) -> c = 0x20%N.
Proof.
  unfold lower_char.
  repeat match goal with
         | |- context [if ?b then _ else _] => destruct b eqn:?
         end; simpl; intros H; N_bools; intuition lia.
Qed.

(** ** Trimming *)

Section Trimming.
Variable p : char -> bool.

Lemma lstrip_by_head_free s : head_free p (lstrip_by p s).
Proof.
  induction s as [| c s IH]; simpl; auto.
  destruct (p c) eqn:Hc; simpl; auto.
Qed.

Lemma lstrip_by_fix s : head_free p s -> lstrip_by p s = s.
Proof. destruct s as [| c s]; simpl; auto. now intros ->. Qed.

Lemma lstrip_by_split s :
  exists a, s = a ++ lstrip_by p s /\ forallb p a = true.
Proof.
  induction s as [| c s (a & Ha & Hp)]; simpl.
  - now exists [].
  - destruct (p c) eqn:Hc.
    + exists (c :: a). simpl. rewrite Hc, Hp. split; auto. now f_equal.
    + now exists [].
Qed.




Lemma rstrip_by_end_free s : end_free p (rstrip_by p s).
Proof.
  unfold end_free, rstrip_by. rewrite rev_involutive.
  apply lstrip_by_head_free.
Qed.

Lemma rstrip_by_fix s : end_free p s -> rstrip_by p s = s.
Proof.
  unfold end_free, rstrip_by. intros H.
  now rewrite lstrip_by_fix, rev_involutive.
Qed.

Lemma rstrip_by_split s :
  exists b, s = rstrip_by p s ++ b /\ forallb p b = true.
Proof.
  unfold rstrip_by. destruct (lstrip_by_split (rev s)) as (a & Ha & Hp).
  exists (rev a). split.
  - rewrite <- rev_app_distr, <- Ha. now rewrite rev_involutive.
  - rewrite forallb_forall in *. intros x Hx. apply Hp. now apply in_rev.
Qed.


Lemma rstrip_by_head_free q s : head_free q s -> head_free q (rstrip_by p s).
Proof.
  destruct (rstrip_by_split s) as (b & Hs & _).
  destruct (rstrip_by p s) as [| c r]; simpl; auto.
  rewrite Hs. auto.
Qed.

Lemma strip_by_free s : head_free p (strip_by p s) /\ end_free p (strip_by p s).
Proof.
  unfold strip_by. split.
  - apply rstrip_by_head_free, lstrip_by_head_free.
  - apply rstrip_by_end_free.
Qed.

Lemma strip_by_fix s : head_free p s -> end_free p s -> strip_by p s = s.
Proof.
  intros Hh He. unfold strip_by. rewrite lstrip_by_fix by assumption.
  now apply rstrip_by_fix.
Qed.

Lemma strip_by_idem s : strip_by p (strip_by p s) = strip_by p s.
Proof. apply strip_by_fix; apply strip_by_free. Qed.

Lemma strip_by_split s :
  exists a b,
    s = a ++ strip_by p s ++ b /\ forallb p a = true /\ forallb p b = true.
Proof.
  unfold strip_by. destruct (lstrip_by_split s) as (a & Ha & Hpa).
  destruct (rstrip_by_split (lstrip_by p s)) as (b & Hb & Hpb).
  exists a, b. split; auto. now rewrite <- Hb.
Qed.


Lemma forallb_strip_by (q : char -> bool) s :
  forallb q s = true -> forallb q (strip_by p s) = true.
Proof.
  destruct (strip_by_split s) as (a & b & Hs & _). intros H.
  rewrite Hs, !forallb_app in H. now N_bools.
Qed.
End Trimming.

Lemma head_free_all p s : forallb (fun c => negb (p c)) s = true -> head_free p s.
Proof.
  destruct s as [| c s]; simpl; auto. intros [H _]%andb_prop.
  now apply negb_true_iff.
Qed.

Lemma end_free_all p s : forallb (fun c => negb (p c)) s = true -> end_free p s.
Proof.
  intros H. apply head_free_all. rewrite forallb_forall in *.
  intros x Hx. apply H. now apply in_rev.
Qed.

(** ** Searching *)

Lemma take_while_all p a b :
  forallb p a = true -> take_while p (a ++ b) = a ++ take_while p b.
Proof.
  induction a as [| c a IH]; simpl; auto.
  intros [-> Ha]%andb_prop. now rewrite IH.
Qed.

Lemma drop_while_all p a b :
  forallb p a = true -> drop_while p (a ++ b) = drop_while p b.
Proof.
  induction a as [| c a IH]; simpl; auto.
  intros [-> Ha]%andb_prop. now rewrite IH.
Qed.



Lemma take_while_forallb p s : forallb p (take_while p s) = true.
Proof.
  induction s as [| c s IH]; simpl; auto.
  destruct (p c) eqn:Hc; simpl; auto. now rewrite Hc.
Qed.


(** When there is a match at all. *)
Lemma match_spaces_group_exists ws c rest :
  ws <> [] -> forallb isspace ws = true -> isspace c = false ->
  exists g, match_spaces_group (ws ++ c :: rest) = Some g.
Proof.
  intros Hws Hsp Hc. unfold match_spaces_group.
  rewrite take_while_all, drop_while_all by assumption.
  simpl. rewrite Hc. simpl. rewrite app_nil_r.
  destruct ws as [| w ws]; [contradiction |]. rewrite Hc. simpl. eauto.
Qed.

Lemma match_spaces_group_inv s g :
  match_spaces_group s = Some g ->
  (exists c r, s = c :: r /\ isspace c = true)
  /\ g <> [] /\ forallb nonspace g = true.
Proof.
  unfold match_spaces_group.
  destruct s as [| c r]; simpl; [discriminate |].
  destruct (isspace c) eqn:Hc; [| discriminate].
  destruct (take_while _ _) as [| x g'] eqn:Hg; [discriminate |].
  intros [= <-]. split; [eauto |]. split; [discriminate |].
  rewrite <- Hg. apply (take_while_forallb nonspace).
Qed.

Lemma match_literal_ci_app kw k r :
  map tolower k = kw -> match_literal_ci kw (k ++ r) = Some r.
Proof.
  intros <-. induction k as [| c k IH]; simpl.
  - now destruct r.
  - now rewrite N.eqb_refl.
Qed.

Lemma match_literal_ci_inv kw s r :
  match_literal_ci kw s = Some r -> exists k, s = k ++ r /\ map tolower k = kw.
Proof.
  revert s. induction kw as [| x kw IH]; intros s; simpl.
  - destruct s; intros [= <-]; now exists [].
  - destruct s as [| c s]; [discriminate |].
    destruct (tolower c =? x)%N eqn:Hc; [| discriminate].
    intros (k & -> & Hk)%IH. exists (c :: k). simpl.
    apply N.eqb_eq in Hc. now rewrite Hc, Hk.
Qed.

Lemma match_here_inv kw prev s g :
  match_here kw prev s = Some g ->
  exists k r, s = k ++ r /\ map tolower k = kw /\ match_spaces_group r = Some g.
Proof.
  unfold match_here. destruct (at_boundary prev s); [| discriminate].
  destruct (match_literal_ci kw s) as [r |] eqn:Hr; [| discriminate].
  intros Hg. apply match_literal_ci_inv in Hr as (k & -> & Hk). eauto.
Qed.

Lemma prev_after_cons prev c a : prev_after prev (c :: a) = prev_after (Some c) a.
Proof.
  unfold prev_after. simpl. destruct (rev a) as [| x r] eqn:E; simpl; auto.
Qed.

(** A match somewhere gives a match of the search. *)
Lemma search_from_found kw prev a rest g :
  match_here kw (prev_after prev a) rest = Some g ->
  exists g', search_from kw prev (a ++ rest) = Some g'.
Proof.
  revert prev. induction a as [| c a IH]; intros prev H.
  - simpl. unfold prev_after in H. simpl in H.
    destruct rest; simpl; rewrite H; eauto.
  - rewrite prev_after_cons in H. simpl.
    destruct (match_here kw prev (c :: a ++ rest)); eauto.
Qed.


(** The group of a search has no whitespace in it. *)
Lemma search_from_group kw prev s g :
  search_from kw prev s = Some g -> g <> [] /\ forallb nonspace g = true.
Proof.
  revert prev. induction s as [| c s IH]; intros prev; simpl.
  - destruct (match_here kw prev []) eqn:H; [| discriminate].
    intros [= ->]. apply match_here_inv in H as (k & r & _ & _ & H).
    now apply match_spaces_group_inv in H.
  - destruct (match_here kw prev (c :: s)) eqn:H.
    + intros [= ->]. apply match_here_inv in H as (k & r & _ & _ & H).
      now apply match_spaces_group_inv in H.
    + apply IH.
Qed.

(** A text without whitespace has no match. *)
Lemma match_here_nonspace kw prev s :
  forallb nonspace s = true -> match_here kw prev s = None.
Proof.
  intros Hs. destruct (match_here kw prev s) eqn:H; auto.
  apply match_here_inv in H as (k & r & -> & _ & H).
  apply match_spaces_group_inv in H as [(c & r' & -> & Hc) _].
  rewrite forallb_app in Hs. simpl in Hs. unfold nonspace at 2 in Hs.
  rewrite Hc in Hs. simpl in Hs. now rewrite andb_false_r in Hs.
Qed.

Lemma search_from_nonspace kw prev s :
  forallb nonspace s = true -> search_from kw prev s = None.
Proof.
  revert prev. induction s as [| c s IH]; intros prev Hs; simpl.
  - now rewrite match_here_nonspace.
  - rewrite match_here_nonspace by assumption.
    simpl in Hs. apply andb_prop in Hs as [_ Hs]. now apply IH.
Qed.

(** ** Prefixes *)

Lemma startswith_iff s p : startswith s p = true <-> exists r, s = p ++ r.
Proof.
  revert s. induction p as [| x p IH]; intros s; simpl.
  - split; [intros _; now exists s | intros _; now destruct s].
  - destruct s as [| c s]; simpl.
    + split; [discriminate | intros [r Hr]; discriminate].
    + rewrite andb_true_iff, N.eqb_eq, IH. split.
      * intros [-> [r ->]]. eauto.
      * intros [r [= -> ->]]. eauto.
Qed.

(** Lowered text that starts with a literal without an [i]: the text starts
    with as many characters, which lower one by one to the literal. *)
Lemma startswith_lower s p :
  ~ In 0x69%N p -> startswith (lower s) p = true ->
  exists k r, s = k ++ r /\ map tolower k = p.
Proof.
  revert s. induction p as [| x p IH]; intros s Hi Hp.
  - now exists [], s.
  - destruct s as [| c s]; [discriminate |].
    unfold lower in Hp. simpl in Hp. fold (lower s) in Hp.
    assert (Hc : c <> 0x0130%N).
    { intros ->. change (lower_char 0x0130%N) with [0x69%N; 0x0307%N] in Hp.
      cbn [app startswith] in Hp. apply andb_prop in Hp as [Hx _].
      apply N.eqb_eq in Hx. apply Hi. now left. }
    rewrite (lower_char_tolower c Hc) in Hp. cbn [app startswith] in Hp.
    apply andb_prop in Hp as [Hx Hp]. apply N.eqb_eq in Hx.
    destruct (IH s) as (k & r & -> & Hk); auto.
    { intros H. apply Hi. now right. }
    exists (c :: k), r. simpl. now rewrite Hx, Hk.
Qed.

(** Lowered text without whitespace in it does not start with a literal that
    has a space in it. *)
Lemma startswith_lower_nonspace s p :
  forallb nonspace s = true -> In 0x20%N p -> startswith (lower s) p = false.
Proof.
  intros Hs Hp. destruct (startswith (lower s) p) eqn:H; auto. exfalso.
  apply startswith_iff in H as [r Hr].
  assert (Hin : In 0x20%N (lower s)) by (rewrite Hr; apply in_or_app; auto).
  unfold lower in Hin. apply in_flat_map in Hin as (c & Hc & Hl).
  apply lower_char_space in Hl as ->.
  rewrite forallb_forall in Hs. now specialize (Hs _ Hc).
Qed.

Lemma all_space_or_not l :
  forallb isspace l = true
  \/ exists ws c rest, l = ws ++ c :: rest /\ forallb isspace ws = true
                       /\ isspace c = false.
Proof.
  induction l as [| c l [IH | (ws & x & rest & -> & Hws & Hx)]]; simpl; auto.
  - destruct (isspace c) eqn:Hc; simpl; auto. right. now exists [], c, l.
  - destruct (isspace c) eqn:Hc.
    + right. exists (c :: ws), x, rest. simpl. now rewrite Hc.
    + right. now exists [], c, (ws ++ x :: rest).
Qed.

Lemma end_free_last p a c : end_free p (a ++ [c]) -> p c = false.
Proof. unfold end_free. now rewrite rev_app_distr. Qed.

Lemma end_free_space_tail a b :
  b <> [] -> forallb isspace b = true -> ~ end_free isspace (a ++ b).
Proof.
  intros Hb Hsp He. destruct (exists_last Hb) as (b' & c & ->).
  rewrite app_assoc in He. apply end_free_last in He.
  rewrite forallb_app in Hsp. simpl in Hsp. rewrite He in Hsp.
  now rewrite andb_false_r in Hsp.
Qed.

(** A keyword at a boundary, a space, and a character that is not
    whitespace somewhere behind: the search finds a match. *)
Lemma keyword_gives_match x kw a k r :
  (0x61 <= x <= 0x7A)%N -> x <> 0x6B%N -> x <> 0x69%N ->
  boundary_before a ->
  map tolower k = x :: kw ->
  forallb isspace r = false ->
  exists g, re_search (x :: kw) (a ++ k ++ [0x20%N] ++ r) = Some g.
Proof.
  intros Hx Hk Hi Ha Hkw Hr. unfold re_search.
  enough (exists g, match_here (x :: kw) (prev_after None a) (k ++ [0x20%N] ++ r) = Some g)
    as [g Hg]
    by exact (search_from_found (x :: kw) None a _ g Hg).
  destruct k as [| c k1]; [discriminate |]. injection Hkw as Hc Hk1.
  unfold match_here, at_boundary. simpl app at 1. cbv beta iota.
  rewrite (tolower_letter_word c x Hx Hk Hi Hc).
  assert (Hb : match prev_after None a with
               | Some p => is_word p
               | None => false
               end = false).
  { unfold boundary_before in Ha. now destruct (prev_after None a). }
  rewrite Hb. simpl xorb. cbv iota.
  change (c :: k1 ++ [0x20%N] ++ r) with ((c :: k1) ++ [0x20%N] ++ r).
  rewrite (match_literal_ci_app (x :: kw) (c :: k1) ([0x20%N] ++ r))
    by (simpl; now rewrite Hc, Hk1).
  destruct (all_space_or_not r) as [Hr' | (ws & c' & rest & -> & Hws & Hc')];
    [congruence |].
  rewrite app_assoc. apply match_spaces_group_exists; auto. discriminate.
Qed.

(** A trimmed text whose lowered form starts with a keyword and a space has
    a match of the keyword's pattern at its head. *)
Lemma prefix_gives_match x kw s :
  (0x61 <= x <= 0x7A)%N -> x <> 0x6B%N -> x <> 0x69%N ->
  ~ In 0x69%N (x :: kw ++ [0x20%N]) ->
  end_free isspace s ->
  startswith (lower s) ((x :: kw) ++ [0x20%N]) = true ->
  exists g, re_search (x :: kw) s = Some g.
Proof.
  intros Hx Hk Hi Hni He Hp.
  apply startswith_lower in Hp as (k & r & -> & Hkr); auto.
  destruct (exists_last (l := k)) as (k1 & sp & ->).
  { intros ->. discriminate. }
  rewrite map_app in Hkr. simpl map in Hkr.
  apply (app_inj_tail (map tolower k1) (x :: kw)) in Hkr as [Hk1 Hsp].
  apply tolower_space in Hsp as ->.
  rewrite <- app_assoc in *.
  apply (keyword_gives_match x kw [] k1 r); auto; [exact I |].
  destruct (forallb isspace r) eqn:Hr; auto. exfalso.
  apply (end_free_space_tail k1 ([0x20%N] ++ r)); auto. discriminate.
Qed.

(** ** The normaliser, rule by rule *)

Lemma normalize_rules raw :
  _normalize_token raw
  = match strip raw with
    | [] => []
    | _ :: _ => rules (unwrap_json (strip raw))
    end.
Proof. unfold _normalize_token. now destruct (strip raw). Qed.

Lemma group_trimmed g : forallb nonspace g = true -> strip g = g.
Proof.
  intros H. apply strip_by_fix; [now apply head_free_all | now apply end_free_all].
Qed.

Lemma normalize_clean t : clean t -> _normalize_token t = t.
Proof.
  intros (Hns & Hh & He & Hb). rewrite normalize_rules, (group_trimmed t Hns).
  destruct t as [| c t']; [reflexivity |]. set (t := c :: t') in *.
  change (rules (unwrap_json t) = t).
  assert (Hu : unwrap_json t = t) by (unfold unwrap_json; now rewrite Hb).
  rewrite Hu. unfold rules, re_search.
  rewrite !search_from_nonspace by assumption.
  unfold plain_prefixes, strip_prefix.
  rewrite !startswith_lower_nonspace by (auto; simpl; auto 10).
  rewrite (group_trimmed t Hns). now apply strip_by_fix.
Qed.

Lemma rules_quote_free s :
  head_free (mem_char quotes) (rules s) /\ end_free (mem_char quotes) (rules s).
Proof.
  unfold rules.
  destruct (re_search "bearer" s); [apply strip_by_free |].
  destruct (re_search "token" s), (contains (lower s) "authorization");
    apply strip_by_free.
Qed.

Lemma normalize_quote_free raw :
  head_free (mem_char quotes) (_normalize_token raw)
  /\ end_free (mem_char quotes) (_normalize_token raw).
Proof.
  rewrite normalize_rules. destruct (strip raw).
  - split; exact I.
  - apply rules_quote_free.
Qed.

(** The scenarios of the specification for the normaliser. *)
Example normalize_header_line :
  _normalize_token "Authorization: Bearer abc.def-123" = "abc.def-123".
Proof. vm_compute. reflexivity. Qed.

Example normalize_blank :
  _normalize_token "" = [] /\ _normalize_token "   " = [].
Proof. split; reflexivity. Qed.

Example normalize_bare_token :
  _normalize_token "abc.def-123" = "abc.def-123".
Proof. vm_compute. reflexivity. Qed.

Example normalize_json_token :
  _normalize_token (dq "{'accessToken': 'abc.def-123', 'expires': 3600}")
  = "abc.def-123".
Proof. vm_compute. reflexivity. Qed.

(** ** Claim C5 *)

(** C5, as stated, fails: a doubled [Token] prefix loses one prefix at each
    pass. *)
Lemma C5_second_pass_differs :
  _normalize_token "Token Token x" = "Token x"
  /\ _normalize_token (_normalize_token "Token Token x") = "x"
  /\ _normalize_token (_normalize_token "Token Token x")
     <> _normalize_token "Token Token x".
Proof. vm_compute. repeat split. discriminate. Qed.

(** C5, amended: the normaliser leaves a clean token as it is, so a second
    pass changes nothing whenever the first pass has given a text without
    whitespace in it and without an opening brace at its head. *)
Theorem C5_idempotent_on_clean_tokens (x : str) :
  forallb nonspace (_normalize_token x) = true ->
  startswith (_normalize_token x) "{" = false ->
  _normalize_token (_normalize_token x) = _normalize_token x.
Proof.
  intros Hns Hb. apply normalize_clean.
  destruct (normalize_quote_free x) as [Hh He]. repeat split; assumption.
Qed.

Lemma C5_idempotent_on_clean_tokens_witness :
  _normalize_token (_normalize_token "Authorization: Bearer abc.def-123")
  = _normalize_token "Authorization: Bearer abc.def-123".
Proof.
  apply (C5_idempotent_on_clean_tokens "Authorization: Bearer abc.def-123");
    vm_compute; reflexivity.
Defined.

(** ** Claim C3 *)

Lemma nil_or_last {X} (l : list X) : l = [] \/ exists p c, l = p ++ [c].
Proof.
  destruct l as [| x l]; [now left | right].
  destruct (exists_last (l := x :: l)) as (p & c & E); [discriminate | eauto].
Qed.








(** ** Claim C4 *)

Lemma separator_not_word c : separator c = true -> is_word c = false.
Proof.
  unfold separator. intros [H | H]%orb_prop.
  - now apply isspace_not_word.
  - now apply quote_not_word.
Qed.

Lemma boundary_after_separators k sep :
  forallb separator sep = true -> (sep = [] -> k = []) ->
  boundary_before (k ++ sep).
Proof.
  intros Hsep Hk. unfold boundary_before, prev_after.
  destruct (nil_or_last sep) as [-> | (p & c & ->)].
  - now rewrite (Hk eq_refl).
  - rewrite app_assoc, rev_app_distr. simpl.
    rewrite forallb_app in Hsep. simpl in Hsep. N_bools.
    now apply separator_not_word.
Qed.

Lemma end_free_app_inv p a b : b <> [] -> end_free p (a ++ b) -> end_free p b.
Proof.
  unfold end_free. rewrite rev_app_distr. intros Hb.
  destruct (rev b) eqn:E; auto. exfalso. apply Hb.
  now rewrite <- (rev_involutive b), E.
Qed.

Lemma forallb_impl {X} (p q : X -> bool) l :
  (forall x, p x = true -> q x = true) -> forallb p l = true -> forallb q l = true.
Proof.
  intros H. induction l as [| x l IH]; simpl; auto.
  intros [Hx Hl]%andb_prop. now rewrite (H x Hx), IH.
Qed.

(** The quote characters trimmed off a text that does not end in
    whitespace. *)
Lemma strip_quotes_split y :
  end_free isspace y ->
  exists q1 q2,
    y = q1 ++ strip_chars quotes y ++ q2
    /\ forallb separator q1 = true /\ forallb separator q2 = true
    /\ (forallb isspace q2 = true -> end_free isspace (strip_chars quotes y)).
Proof.
  intros He. unfold strip_chars.
  destruct (strip_by_split (mem_char quotes) y) as (q1 & q2 & Hy & H1 & H2).
  exists q1, q2. split; auto.
  assert (Hq : forall c, mem_char quotes c = true -> separator c = true).
  { intros c Hc. unfold separator. now rewrite Hc, orb_true_r. }
  split; [now apply (forallb_impl (mem_char quotes)) |].
  split; [now apply (forallb_impl (mem_char quotes)) |].
  intros Hsp. assert (q2 = []) as ->.
  { destruct q2 as [| c q2]; auto. simpl in H2, Hsp.
    apply andb_prop in H2 as [Hc _]. apply andb_prop in Hsp as [Hs _].
    apply quote_not_space in Hc. congruence. }
  rewrite app_nil_r in Hy. set (out := strip_by (mem_char quotes) y) in *.
  destruct out as [| c out]; [exact I |].
  rewrite Hy in He. apply (end_free_app_inv isspace q1); [discriminate | assumption].
Qed.

Lemma skipn_exact {X} (k r : list X) n : length k = n -> skipn n (k ++ r) = r.
Proof.
  intros <-. rewrite skipn_app, skipn_all, Nat.sub_diag. reflexivity.
Qed.

Lemma space_separator l : forallb isspace l = true -> forallb separator l = true.
Proof.
  apply forallb_impl. intros c Hc. unfold separator. now rewrite Hc.
Qed.

(** Where the result of the last rule sits in the working string. *)
Lemma plain_split s :
  startswith (lower s) "bearer " = false ->
  exists a b,
    s = a ++ strip_chars quotes (strip (strip_prefix plain_prefixes (lower s) s)) ++ b
    /\ boundary_before a
    /\ (forallb isspace b = true ->
        end_free isspace
          (strip_chars quotes (strip (strip_prefix plain_prefixes (lower s) s)))).
Proof.
  intros Hb. unfold plain_prefixes, strip_prefix. rewrite Hb.
  destruct (startswith (lower s) "token ") eqn:Ht.
  - apply startswith_lower in Ht as (k & r & -> & Hk);
      [| simpl; intuition discriminate].
    rewrite (skipn_exact k r) by now rewrite <- (length_map tolower), Hk.
    assert (Hidem : strip (strip r) = strip r) by apply strip_by_idem.
    rewrite !Hidem.
    destruct (strip_by_split isspace r) as (w1 & w2 & Hr & Hw1 & Hw2).
    fold (strip r) in Hr.
    destruct (strip_quotes_split (strip r)) as (q1 & q2 & Hy & Hq1 & Hq2 & Hend).
    { apply strip_by_free. }
    set (out := strip_chars quotes (strip r)) in *.
    destruct (nil_or_last k) as [-> | (k0 & sp & ->)]; [discriminate |].
    rewrite map_app in Hk. simpl map in Hk.
    apply (app_inj_tail (map tolower k0) (str_of "token")) in Hk as [_ Hsp].
    apply tolower_space in Hsp as ->.
    exists (k0 ++ ([0x20%N] ++ w1 ++ q1)), (q2 ++ w2). split; [| split].
    + rewrite Hr at 1. rewrite Hy at 1. now rewrite <- !app_assoc.
    + apply boundary_after_separators; [| discriminate].
      simpl. rewrite forallb_app, Hq1, (space_separator w1 Hw1). reflexivity.
    + rewrite forallb_app. intros [H _]%andb_prop. auto.
  - destruct (strip_by_split isspace s) as (w1 & w2 & Hr & Hw1 & Hw2).
    fold (strip s) in Hr.
    destruct (strip_quotes_split (strip s)) as (q1 & q2 & Hy & Hq1 & Hq2 & Hend).
    { apply strip_by_free. }
    set (out := strip_chars quotes (strip s)) in *.
    exists ([] ++ (w1 ++ q1)), (q2 ++ w2). split; [| split].
    + rewrite Hr at 1. rewrite Hy at 1. now rewrite <- !app_assoc.
    + apply boundary_after_separators; auto.
      rewrite forallb_app, Hq1, (space_separator w1 Hw1). reflexivity.
    + rewrite forallb_app. intros [H _]%andb_prop. auto.
Qed.

Lemma bearer_letter : (0x61 <= ch "b" <= 0x7A)%N /\ ch "b" <> 0x6B%N /\ ch "b" <> 0x69%N.
Proof. unfold ch. simpl. lia. Qed.

Lemma token_letter : (0x61 <= ch "t" <= 0x7A)%N /\ ch "t" <> 0x6B%N /\ ch "t" <> 0x69%N.
Proof. unfold ch. simpl. lia. Qed.

(** A trimmed text without a [Bearer] match does not start with the plain
    [bearer] prefix either. *)
Lemma no_match_no_bearer_prefix s :
  end_free isspace s -> re_search "bearer" s = None ->
  startswith (lower s) "bearer " = false.
Proof.
  intros He Hs. destruct (startswith (lower s) "bearer ") eqn:Hp; auto.
  destruct bearer_letter as (H1 & H2 & H3).
  destruct (prefix_gives_match (ch "b") (str_of "earer") s) as [g Hg]; auto.
  - simpl. intuition discriminate.
  - change (re_search "bearer" s = Some g) in Hg. congruence.
Qed.

Lemma no_match_no_token_prefix s :
  end_free isspace s -> re_search "token" s = None ->
  startswith (lower s) "token " = false.
Proof.
  intros He Hs. destruct (startswith (lower s) "token ") eqn:Hp; auto.
  destruct token_letter as (H1 & H2 & H3).
  destruct (prefix_gives_match (ch "t") (str_of "oken") s) as [g Hg]; auto.
  - simpl. intuition discriminate.
  - change (re_search "token" s = Some g) in Hg. congruence.
Qed.

(** The last rule never leaves a [Bearer] prefix on its result. *)
Lemma plain_not_bearer s :
  end_free isspace s -> re_search "bearer" s = None ->
  startswith
    (lower (strip_chars quotes (strip (strip_prefix plain_prefixes (lower s) s))))
    "bearer " = false.
Proof.
  intros He Hs. pose proof (no_match_no_bearer_prefix s He Hs) as Hb.
  destruct (plain_split s Hb) as (a & b & Hsplit & Ha & Hend).
  set (out := strip_chars quotes _) in *.
  destruct (startswith (lower out) "bearer ") eqn:Hp; auto. exfalso.
  apply startswith_lower in Hp as (k & r & Hout & Hk);
    [| simpl; intuition discriminate].
  destruct (nil_or_last k) as [-> | (k1 & sp & ->)]; [discriminate |].
  rewrite map_app in Hk. simpl map in Hk.
  apply (app_inj_tail (map tolower k1) (str_of "bearer")) in Hk as [Hk1 Hsp].
  apply tolower_space in Hsp as ->.
  assert (Hr : forallb isspace (r ++ b) = false).
  { destruct (forallb isspace (r ++ b)) eqn:E; auto. exfalso.
    rewrite forallb_app in E. apply andb_prop in E as [Er Eb].
    specialize (Hend Eb). rewrite Hout, <- app_assoc in Hend.
    apply (end_free_space_tail k1 ([0x20%N] ++ r)); auto. discriminate. }
  destruct bearer_letter as (H1 & H2 & H3).
  destruct (keyword_gives_match (ch "b") (str_of "earer") a k1 (r ++ b))
    as [g Hg]; auto.
  change (ch "b" :: str_of "earer") with (str_of "bearer") in Hg.
  rewrite Hsplit, Hout, <- !app_assoc in Hs.
  assert (E : Some g = None) by (rewrite <- Hg; exact Hs). discriminate.
Qed.

Lemma rules_not_bearer s :
  end_free isspace s -> startswith (lower (rules s)) "bearer " = false.
Proof.
  intros He. unfold rules.
  assert (Hgroup : forall kw g, re_search kw s = Some g ->
            startswith (lower (strip_chars quotes (strip g))) "bearer " = false).
  { intros kw g Hg. apply search_from_group in Hg as [_ Hns].
    apply startswith_lower_nonspace; [| simpl; auto 10].
    unfold strip_chars, strip. now do 2 apply forallb_strip_by. }
  destruct (re_search "bearer" s) as [g |] eqn:Hb; [now apply (Hgroup "bearer") |].
  destruct (re_search "token" s) as [g |] eqn:Ht.
  - destruct (contains (lower s) "authorization").
    + now apply (Hgroup "token").
    + now apply plain_not_bearer.
  - destruct (contains (lower s) "authorization"); now apply plain_not_bearer.
Qed.

Lemma first_token_value_trimmed keys members v :
  first_token_value keys members = Some v -> v <> [] /\ end_free isspace v.
Proof.
  induction keys as [| key keys IH]; simpl; [discriminate |].
  destruct (dict_get key members) as [[| | | val | |] |]; auto.
  destruct (strip val) as [| c r] eqn:E; auto.
  intros [= <-]. split; [discriminate |]. rewrite <- E. apply strip_by_free.
Qed.

Lemma unwrap_json_trimmed s : end_free isspace s -> end_free isspace (unwrap_json s).
Proof.
  intros He. unfold unwrap_json.
  destruct (startswith s "{" && endswith s "}"); auto.
  destruct (json_loads s) as [[| | | | | members] |]; auto.
  destruct (first_token_value token_keys members) as [v |] eqn:Hv; auto.
  now apply first_token_value_trimmed in Hv.
Qed.

(** C4, as stated, fails: a JSON object without one of the three keys comes
    back as it is, and a doubled [Token] prefix keeps one prefix. *)
Lemma C4_json_and_prefix_survive :
  _normalize_token (dq "{'a': 1}") = dq "{'a': 1}"
  /\ json_loads (_normalize_token (dq "{'a': 1}"))
     = Some (JObject [("a" : str, JNumber "1")])
  /\ _normalize_token "Token Token x" = "Token x"
  /\ startswith (_normalize_token "Token Token x") "Token " = true.
Proof. vm_compute. repeat split. Qed.

(** C4, amended: for every input the result has no quote character at
    either end and does not start with [Bearer] and a space, in any case.
    (It can start with [Token] and a space, and it can be a JSON object.) *)
Theorem C4_result_has_free_ends (raw : str) :
  head_free (mem_char quotes) (_normalize_token raw)
  /\ end_free (mem_char quotes) (_normalize_token raw)
  /\ startswith (lower (_normalize_token raw)) "bearer " = false.
Proof.
  destruct (normalize_quote_free raw) as [Hh He]. split; auto. split; auto.
  rewrite normalize_rules. destruct (strip raw) as [| c r] eqn:E; [reflexivity |].
  rewrite <- E. apply rules_not_bearer, unwrap_json_trimmed. apply strip_by_free.
Qed.

(** ** Claim C6 *)

(** C6, as stated, fails: the value is trimmed, so a value with whitespace
    around it does not come back as it is. *)
Lemma C6_value_is_trimmed :
  json_loads (dq "{'access_token': ' abc '}")
  = Some (JObject [("access_token" : str, JString " abc ")])
  /\ re_search "bearer" (dq "{'access_token': ' abc '}") = None
  /\ re_search "token" (dq "{'access_token': ' abc '}") = None
  /\ _normalize_token (dq "{'access_token': ' abc '}") = "abc"
  /\ _normalize_token (dq "{'access_token': ' abc '}") <> " abc ".
Proof. vm_compute. repeat split. discriminate. Qed.

(** C6, amended: when the trimmed input is a JSON object whose [token] entry
    is not a string with something other than whitespace in it, whose
    [access_token] entry is a string [v] with something other than
    whitespace in it, and the trimmed [v] has no [Bearer] or [Token]
    pattern in it, the normaliser returns [v] without the whitespace around
    it and then without the quote characters around it. *)
Theorem C6_access_token_value (raw : str) (members : list (str * json)) (v : str) :
  startswith (strip raw) "{" = true -> endswith (strip raw) "}" = true ->
  json_loads (strip raw) = Some (JObject members) ->
  (forall t, dict_get "token" members = Some (JString t) -> strip t = []) ->
  dict_get "access_token" members = Some (JString v) ->
  strip v <> [] ->
  re_search "bearer" (strip v) = None -> re_search "token" (strip v) = None ->
  _normalize_token raw = strip_chars quotes (strip v).
Proof.
  intros Hopen Hclose Hjson Htoken Haccess Hv Hb Ht.
  rewrite normalize_rules.
  destruct (strip raw) as [| c r] eqn:E; [discriminate |]. rewrite <- E in *.
  assert (Hu : unwrap_json (strip raw) = strip v).
  { unfold unwrap_json. rewrite Hopen, Hclose, Hjson. simpl andb. cbv iota.
    unfold token_keys, first_token_value.
    destruct (dict_get "token" members) as [[| | | val | |] |] eqn:Ed;
      try (rewrite Haccess; destruct (strip v); [contradiction | reflexivity]).
    rewrite (Htoken val eq_refl), Haccess.
    destruct (strip v); [contradiction | reflexivity]. }
  rewrite Hu. unfold rules. rewrite Hb, Ht.
  assert (He : end_free isspace (strip v)) by apply strip_by_free.
  assert (Hp : strip_prefix plain_prefixes (lower (strip v)) (strip v) = strip v).
  { unfold plain_prefixes, strip_prefix.
    now rewrite no_match_no_bearer_prefix, no_match_no_token_prefix. }
  rewrite Hp. assert (Hidem : strip (strip v) = strip v) by apply strip_by_idem.
  rewrite Hidem. now destruct (contains (lower (strip v)) "authorization").
Qed.

Lemma C6_access_token_value_witness :
  _normalize_token (dq "  {'token': 7, 'access_token': 'abc.def-123'}  ")
  = "abc.def-123".
Proof.
  apply (C6_access_token_value
           (dq "  {'token': 7, 'access_token': 'abc.def-123'}  ")
           [("token" : str, JNumber "7");
            ("access_token" : str, JString "abc.def-123")]
           "abc.def-123");
    try (vm_compute; reflexivity).
  - intros t H. vm_compute in H. discriminate.
  - vm_compute. discriminate.
Defined.


(** ** The recursion budget of the JSON decoder *)

Lemma drop_while_length p s : length (drop_while p s) <= length s.
Proof.
  induction s as [| c s IH]; simpl; auto. destruct (p c); simpl; lia.
Qed.

Lemma skip_ws_length s : length (skip_ws s) <= length s.
Proof. apply drop_while_length. Qed.

Lemma skip_ws_cons s c r : skip_ws s = c :: r -> length r < length s.
Proof.
  intros H. pose proof (skip_ws_length s) as L. rewrite H in L. simpl in L. lia.
Qed.

Lemma scan_items_shorter s items r :
  scan_items s = Parsed items r -> length r < length s.
Proof.
  enough (H : forall n s items r, length s <= n ->
                scan_items s = Parsed items r -> length r < length s)
    by (apply (H (length s)); lia).
  clear. induction n as [| n IHn]; intros s items r Hle;
    (destruct s as [| c s]; cbn [scan_items]; [discriminate |]); simpl in Hle; [lia |].
  assert (IH : forall s' its r', length s' <= n ->
                 scan_items s' = Parsed its r' -> length r' < length s')
    by (intros; eapply IHn; eauto).
  clear IHn.
  destruct (c =? dquote)%N.
  { intros [= _ <-]. simpl. lia. }
  destruct (c =? ch "\")%N.
  - destruct s as [| e r1]; [discriminate |].
    destruct (e =? ch "u")%N.
    + destruct r1 as [| h1 [| h2 [| h3 [| h4 r2]]]]; try discriminate.
      destruct (hex4 h1 h2 h3 h4); [| discriminate].
      destruct (scan_items r2) as [its r' | |] eqn:E; try discriminate.
      intros [= _ <-]. apply IH in E; simpl in *; lia.
    + destruct (simple_escape e); [| discriminate].
      destruct (scan_items r1) as [its r' | |] eqn:E; try discriminate.
      intros [= _ <-]. apply IH in E; simpl in *; lia.
  - destruct (c <=? 0x1F)%N; [discriminate |].
    destruct (scan_items s) as [its r' | |] eqn:E; try discriminate.
    intros [= _ <-]. apply IH in E; simpl in *; lia.
Qed.

Lemma scan_items_fuel s : scan_items s <> OutOfFuel.
Proof.
  enough (H : forall n s, length s <= n -> scan_items s <> OutOfFuel)
    by (apply (H (length s)); lia).
  clear. induction n as [| n IH]; intros s Hle;
    (destruct s as [| c s]; cbn [scan_items]; [discriminate |]); simpl in Hle; [lia |].
  destruct (c =? dquote)%N; [discriminate |].
  destruct (c =? ch "\")%N.
  - destruct s as [| e r1]; [discriminate |].
    destruct (e =? ch "u")%N.
    + destruct r1 as [| h1 [| h2 [| h3 [| h4 r2]]]]; try discriminate.
      destruct (hex4 h1 h2 h3 h4); [| discriminate].
      destruct (scan_items r2) eqn:E; try discriminate.
      apply IH in E; [contradiction | simpl in *; lia].
    + destruct (simple_escape e); [| discriminate].
      destruct (scan_items r1) eqn:E; try discriminate.
      apply IH in E; [contradiction | simpl in *; lia].
  - destruct (c <=? 0x1F)%N; [discriminate |].
    destruct (scan_items s) eqn:E; try discriminate.
    apply IH in E; [contradiction | simpl in *; lia].
Qed.

Lemma scanstring_shorter s v r : scanstring s = Parsed v r -> length r < length s.
Proof.
  unfold scanstring. destruct (scan_items s) eqn:E; try discriminate.
  intros [= _ <-]. now apply scan_items_shorter in E.
Qed.

Lemma scanstring_fuel s : scanstring s <> OutOfFuel.
Proof.
  unfold scanstring. pose proof (scan_items_fuel s).
  now destruct (scan_items s).
Qed.

Lemma skip_fraction_length s : length (skip_fraction s) <= length s.
Proof.
  unfold skip_fraction. destruct s as [| c r]; auto.
  destruct (c =? ch ".")%N; auto.
  destruct (take_while is_digit r); auto.
  pose proof (drop_while_length is_digit r). simpl. lia.
Qed.

Lemma skip_exponent_length s : length (skip_exponent s) <= length s.
Proof.
  unfold skip_exponent. destruct s as [| c r]; auto.
  destruct ((c =? ch "e")%N || (c =? ch "E")%N); auto.
  destruct r as [| sg r'].
  - simpl. auto.
  - destruct ((sg =? ch "-")%N || (sg =? ch "+")%N).
    + destruct (take_while is_digit r'); auto.
      pose proof (drop_while_length is_digit r'). simpl. lia.
    + destruct (take_while is_digit (sg :: r')); auto.
      pose proof (drop_while_length is_digit (sg :: r')). simpl in *. lia.
Qed.

Lemma skip_integer_shorter s r : skip_integer s = Some r -> length r < length s.
Proof.
  unfold skip_integer. destruct s as [| c s]; [discriminate |].
  destruct (c =? ch "-")%N.
  - destruct s as [| d s']; [discriminate |].
    destruct (d =? ch "0")%N; [intros [= <-]; simpl; lia |].
    destruct (is_digit d); [| discriminate]. intros [= <-].
    pose proof (drop_while_length is_digit s'). simpl. lia.
  - destruct (c =? ch "0")%N; [intros [= <-]; simpl; lia |].
    destruct (is_digit c); [| discriminate]. intros [= <-].
    pose proof (drop_while_length is_digit s). simpl. lia.
Qed.

Lemma match_number_shorter s v r :
  match_number s = Parsed v r -> length r < length s.
Proof.
  unfold match_number. destruct (skip_integer s) as [r0 |] eqn:E; [| discriminate].
  intros [= _ <-]. apply skip_integer_shorter in E.
  pose proof (skip_fraction_length r0).
  pose proof (skip_exponent_length (skip_fraction r0)). lia.
Qed.

Lemma match_number_fuel s : match_number s <> OutOfFuel.
Proof. unfold match_number. now destruct (skip_integer s). Qed.

Lemma literal_shorter name v s v' r :
  name <> EmptyString -> literal name v s = Parsed v' r -> length r < length s.
Proof.
  intros Hn. unfold literal. destruct (startswith s name) eqn:E; [| discriminate].
  intros [= _ <-]. apply startswith_iff in E as [r ->].
  rewrite skipn_exact by reflexivity. rewrite length_app.
  destruct name; [contradiction |]. simpl. lia.
Qed.

Lemma literal_fuel name v s : literal name v s <> OutOfFuel.
Proof. unfold literal. now destruct (startswith s name). Qed.

Ltac break_head :=
  match goal with
  | |- context [match ?x with _ => _ end] => destruct x eqn:?
  end.

Ltac note_length x :=
  match goal with
  | H : length (skip_ws x) <= length x |- _ => fail 1
  | _ => pose proof (skip_ws_length x)
  end.

Ltac length_facts :=
  repeat match goal with
    | H : scanstring _ = Parsed _ _ |- _ => apply scanstring_shorter in H
    | H : skip_ws _ = _ :: _ |- _ => apply skip_ws_cons in H
    | H : match_number _ = Parsed _ _ |- _ => apply match_number_shorter in H
    | H : literal _ _ _ = Parsed _ _ |- _ =>
        apply literal_shorter in H; [| discriminate]
    | H : context [skip_ws ?x] |- _ => note_length x
    end.

(** Every parser of the decoder consumes a character. *)
Lemma decoder_shorter fuel :
  (forall s v r, scan_once fuel s = Parsed v r -> length r < length s)
  /\ (forall s kvs r, parse_members fuel s = Parsed kvs r -> length r < length s)
  /\ (forall s xs r, parse_elements fuel s = Parsed xs r -> length r < length s).
Proof.
  induction fuel as [| fuel (IH1 & IH2 & IH3)];
    [repeat split; intros; discriminate |].
  repeat split; intros s v r; cbn [scan_once parse_members parse_elements];
    repeat break_head; try discriminate; intros E; inversion E; subst; clear E;
    repeat match goal with
      | H : scan_once fuel _ = Parsed _ _ |- _ => apply IH1 in H
      | H : parse_members fuel _ = Parsed _ _ |- _ => apply IH2 in H
      | H : parse_elements fuel _ = Parsed _ _ |- _ => apply IH3 in H
      end;
    length_facts; simpl in *; lia.
Qed.

(** A budget above twice the length of the text is never exhausted. *)
Lemma decoder_fuel fuel :
  (forall s, 2 * length s < fuel -> scan_once fuel s <> OutOfFuel)
  /\ (forall s, 2 * length s < fuel -> parse_members fuel s <> OutOfFuel)
  /\ (forall s, 2 * length s + 1 < fuel -> parse_elements fuel s <> OutOfFuel).
Proof.
  induction fuel as [| fuel (IH1 & IH2 & IH3)];
    [repeat split; intros; lia |].
  destruct (decoder_shorter fuel) as (S1 & S2 & S3).
  repeat split; intros s Hs; cbn [scan_once parse_members parse_elements];
    repeat break_head; try discriminate;
    try apply literal_fuel; try apply match_number_fuel;
    try (exfalso; eapply scanstring_fuel; eassumption);
    try (exfalso; eapply match_number_fuel; eassumption);
    try (exfalso; eapply literal_fuel; eassumption);
    repeat match goal with
      | H : scan_once fuel _ = Parsed _ _ |- _ => apply S1 in H
      | H : parse_members fuel _ = Parsed _ _ |- _ => apply S2 in H
      | H : parse_elements fuel _ = Parsed _ _ |- _ => apply S3 in H
      end;
    exfalso;
    match goal with
    | H : scan_once fuel _ = OutOfFuel |- _ => revert H; apply IH1
    | H : parse_members fuel _ = OutOfFuel |- _ => revert H; apply IH2
    | H : parse_elements fuel _ = OutOfFuel |- _ => revert H; apply IH3
    end;
    length_facts;
    repeat match goal with
      | |- context [skip_ws ?x] => note_length x
      end;
    simpl in *; lia.
Qed.

(** [json.loads] of the model never runs out of budget: a text is parsed or
    refused. *)
Lemma json_loads_budget s :
  json_loads_fuel (S (2 * length s)) s <> OutOfFuel.
Proof.
  unfold json_loads_fuel.
  destruct (decoder_fuel (S (2 * length s))) as (H & _ & _).
  pose proof (skip_ws_length s) as L. specialize (H (skip_ws s)).
  destruct (scan_once _ (skip_ws s)) as [v r | |]; try discriminate.
  - now destruct (skip_ws r).
  - apply H. lia.
Qed.


(** ** Reasoning about runs *)

Section Runs.
Context {A B : Type}.
Implicit Types (m : M A) (k : A -> M B).

Lemma bind_normal m k a t :
  m = (Normal a, t) -> bind m k = (fst (k a), t ++ snd (k a)).
Proof. intros ->. unfold bind. now destruct (k a). Qed.

Lemma trace_bind m k :
  trace (bind m k) =
  trace m ++ match fst m with Normal a => trace (k a) | _ => [] end.
Proof.
  destruct m as [[a | | e] t]; unfold bind, trace; simpl.
  - now destruct (k a).
  - now rewrite app_nil_r.
  - now rewrite app_nil_r.
Qed.
End Runs.

Lemma fst_bind {A B} (m : M A) (k : A -> M B) :
  fst (bind m k) =
  match fst m with
  | Normal a => fst (k a)
  | Returned => Returned
  | Raised e => Raised e
  end.
Proof.
  destruct m as [[a | | e] t]; unfold bind; simpl; auto. now destruct (k a).
Qed.

Lemma trace_try_except {A} (m : M A) h :
  trace (try_except m h) =
  trace m ++ match fst m with Raised e => trace (h e) | _ => [] end.
Proof.
  destruct m as [[a | | e] t]; unfold try_except, trace; simpl.
  - now rewrite app_nil_r.
  - now rewrite app_nil_r.
  - now destruct (h e).
Qed.

Lemma emits_ret {A} p (a : A) : emits p (ret a).
Proof. reflexivity. Qed.

Lemma emits_raise {A} p e : emits p (@raise A e).
Proof. reflexivity. Qed.

Lemma emits_return {A} p : emits p (@py_return A).
Proof. reflexivity. Qed.

Lemma emits_print p msg : p (EPrint msg) = true -> emits p (print msg).
Proof. unfold emits. simpl. now intros ->. Qed.

Lemma emits_call {A} p ev (o : outcome A) : p ev = true -> emits p (call ev o).
Proof. unfold emits. simpl. now intros ->. Qed.

Lemma emits_bind {A B} p (m : M A) (k : A -> M B) :
  emits p m -> (forall a, emits p (k a)) -> emits p (bind m k).
Proof.
  unfold emits. intros Hm Hk. rewrite trace_bind, forallb_app, Hm.
  destruct (fst m); simpl; auto.
Qed.

Lemma emits_try_except {A} p (m : M A) h :
  emits p m -> (forall e, emits p (h e)) -> emits p (try_except m h).
Proof.
  unfold emits. intros Hm Hh. rewrite trace_try_except, forallb_app, Hm.
  destruct (fst m); simpl; auto.
Qed.

Lemma emits_try_except_mfa {A} p (m h : M A) :
  emits p m -> emits p h -> emits p (try_except_mfa m h).
Proof.
  unfold emits, try_except_mfa, trace. intros Hm Hh.
  destruct m as [[a | | []] t]; simpl in *; auto.
  destruct h as [c t']. simpl in *. now rewrite forallb_app, Hm.
Qed.

Lemma emits_weaken {A} (p q : event -> bool) (m : M A) :
  (forall ev, p ev = true -> q ev = true) -> emits p m -> emits q m.
Proof.
  unfold emits. intros Hpq. induction (trace m) as [| ev t IH]; simpl; auto.
  intros [Hev Ht]%andb_prop. now rewrite (Hpq _ Hev), IH.
Qed.

Lemma emits_In {A} p (m : M A) ev : emits p m -> In ev (trace m) -> p ev = true.
Proof. unfold emits. rewrite forallb_forall. auto. Qed.

Ltac footprint :=
  repeat first
    [ apply emits_ret | apply emits_raise | apply emits_return
    | apply emits_print; reflexivity
    | apply emits_call; reflexivity
    | apply emits_bind; [| intros ?]
    | apply emits_try_except; [| intros ?]
    | apply emits_try_except_mfa
    | progress cbv zeta
    | match goal with
      | |- emits _ (match ?x with _ => _ end) => destruct x
      end ].

Lemma prelude_emits w : emits (from Prelude) (prelude w).
Proof. unfold prelude, check_version. footprint. Qed.

Lemma preliminaries_emits w : emits (from Preliminaries) (preliminaries w).
Proof. unfold preliminaries, security_check, _choose_auth_method. footprint. Qed.

Lemma acquire_emits w a : emits (from Acquire) (acquire w a).
Proof.
  unfold acquire, password_login, token_login, _print_sso_token_instructions.
  footprint.
Qed.

Lemma validate_emits w a mm : emits (from Validate) (validate w a mm).
Proof. unfold validate, connection_test_failed, _test_connection. footprint. Qed.

Lemma publish_emits w mm : emits (from Publish) (publish w mm).
Proof. unfold publish. footprint. Qed.

Lemma login_failed_emits e : emits (from Prelude) (login_failed e).
Proof. unfold login_failed. footprint. Qed.

Lemma In_bind_later {A B} (m : M A) (k : A -> M B) p ev :
  emits p m -> p ev = false -> In ev (trace (bind m k)) ->
  exists a t, m = (Normal a, t) /\ In ev (trace (k a)).
Proof.
  intros Hm Hev. rewrite trace_bind. intros [Hin | Hin]%in_app_or.
  - rewrite (emits_In _ _ _ Hm Hin) in Hev. discriminate.
  - destruct m as [[a | | e] t]; simpl in Hin; try contradiction. eauto.
Qed.

Lemma In_try_except_body {A} (m : M A) h p ev :
  (forall e, emits p (h e)) -> p ev = false ->
  In ev (trace (try_except m h)) -> In ev (trace m).
Proof.
  intros Hh Hev. rewrite trace_try_except. intros [Hin | Hin]%in_app_or; auto.
  destruct (fst m) as [a | | e]; simpl in Hin; try contradiction.
  rewrite (emits_In _ _ _ (Hh e) Hin) in Hev. discriminate.
Qed.



Lemma main_after_prelude w t0 :
  prelude w = (Normal tt, t0) ->
  main w = (match fst (main_body w) with Raised _ => Normal tt | c => c end,
            t0 ++ trace (main_body w)
               ++ match fst (main_body w) with
                  | Raised e => trace (login_failed e)
                  | _ => []
                  end).
Proof.
  intros H. unfold main. rewrite (bind_normal _ _ _ _ H).
  change (snd (try_except (main_body w) login_failed))
    with (trace (try_except (main_body w) login_failed)).
  rewrite trace_try_except. f_equal.
  destruct (main_body w) as [[[] | | e] t]; reflexivity.
Qed.

(** The two end-to-end scenarios of the specification. *)
Example run_token_scenario :
  main (scripted (Returns tt) (token_user "Authorization: Bearer abc.def-123")
          (Returns tt) (Returns tt) (Returns two_accounts) (Returns tt))
  = (Normal tt,
     [ELoadDotenv; EPrint MsgBanner; EImportMonarchmoney;
      EPrint (MsgVersion ("0.1.15" : str)); EDeleteToken; EPrint MsgCleared;
      EPrint MsgSecurityCheck; EInput AskHasMfa; EPrint MsgLoginMethods;
      EInput AskChoice; EPrint MsgStartingLogin; EPrint MsgSsoInstructions;
      EInput AskToken; EConstruct (Client (Some ("abc.def-123" : str)));
      EPrint MsgTestingConnection; EPrint MsgCallingGetAccounts;
      EGetAccounts (Client (Some ("abc.def-123" : str)));
      EPrint (MsgFoundAccounts 2); EPrint MsgSavingSession;
      ESaveAuthenticatedSession (Client (Some ("abc.def-123" : str)));
      EPrint MsgSessionSaved; EPrint MsgSetupComplete]).
Proof. vm_compute. reflexivity. Qed.

Example run_mfa_scenario :
  main world_mfa
  = (Normal tt,
     [ELoadDotenv; EPrint MsgBanner; EImportMonarchmoney;
      EPrint (MsgVersion ("0.1.15" : str)); EDeleteToken; EPrint MsgCleared;
      EPrint MsgSecurityCheck; EInput AskHasMfa; EPrint MsgLoginMethods;
      EInput AskChoice; EPrint MsgStartingLogin; EInput AskEmail;
      EInput AskPassword; EConstruct (Client None);
      ELogin (Client None) ("user@example.com" : str) ("hunter2" : str) false true;
      EPrint MsgMfaRequired; EInput AskMfaCode;
      EMultiFactorAuthenticate (Client None) ("user@example.com" : str)
        ("hunter2" : str) ("000000" : str);
      EPrint MsgMfaSuccessful; ESaveSession (Client None);
      EPrint MsgTestingConnection; EPrint MsgCallingGetAccounts;
      EGetAccounts (Client None); EPrint (MsgFoundAccounts 2);
      EPrint MsgSavingSession; ESaveAuthenticatedSession (Client None);
      EPrint MsgSessionSaved; EPrint MsgSetupComplete]).
Proof. vm_compute. reflexivity. Qed.




Lemma finish_emits w a mm : emits after_acquire (finish w a mm).
Proof.
  apply emits_bind; [| intros _].
  - apply (emits_weaken (from Validate)); [| apply validate_emits].
    intros ev. unfold from, after_acquire. now destruct (emitter ev) as [[] |].
  - apply (emits_weaken (from Publish)); [| apply publish_emits].
    intros ev. unfold from, after_acquire. now destruct (emitter ev) as [[] |].
Qed.

Lemma preliminaries_cases w a t :
  preliminaries w = (Normal a, t) ->
  delete_token w = Returns tt /\ exists t', t = EDeleteToken :: t'.
Proof.
  unfold preliminaries. destruct (delete_token w) as [[] | e]; [| discriminate].
  intros H. split; auto. rewrite (bind_normal _ _ tt [EDeleteToken]) in H by reflexivity.
  injection H as _ <-. eauto.
Qed.

(** The shape of a run that got as far as choosing a method. *)
Lemma main_from_acquire w t0 a t1 :
  prelude w = (Normal tt, t0) ->
  preliminaries w = (Normal a, t1) ->
  exists tail,
    trace (main w) = t0 ++ t1 ++ trace (acquire w a) ++ tail
    /\ forallb after_acquire tail = true
    /\ (fst (acquire w a) = Returned -> tail = [] /\ fst (main w) = Returned).
Proof.
  intros H0 H1. rewrite (main_after_prelude w t0 H0). unfold trace at 1. simpl.
  assert (Hb : main_body w =
               (fst (mm <- acquire w a; finish w a mm),
                t1 ++ trace (mm <- acquire w a; finish w a mm))).
  { unfold main_body. now rewrite (bind_normal _ _ a t1 H1). }
  rewrite Hb. unfold trace at 1. cbn [fst snd]. rewrite trace_bind, fst_bind.
  destruct (acquire w a) as [[mm | | e] t2]; cbn [fst snd trace].
  - exists (snd (finish w a mm)
            ++ match fst (finish w a mm) with
               | Raised e => snd (login_failed e)
               | _ => []
               end).
    rewrite <- !app_assoc. split; [reflexivity |]. split; [| discriminate].
    rewrite forallb_app. pose proof (finish_emits w a mm) as Hf.
    unfold emits, trace in Hf. rewrite Hf. simpl.
    now destruct (fst (finish w a mm)).
  - exists []. rewrite !app_nil_r. auto.
  - exists (snd (login_failed e)). rewrite !app_nil_r, <- !app_assoc.
    split; [reflexivity |]. split; [reflexivity | discriminate].
Qed.

(** A run that makes a call of the acquisition block went through the
    prelude and the preliminaries. *)
Lemma main_reaches_acquire w ev :
  In ev (trace (main w)) -> emitter ev = Some Acquire ->
  exists t0 a t1,
    prelude w = (Normal tt, t0) /\ preliminaries w = (Normal a, t1)
    /\ In ev (trace (acquire w a)).
Proof.
  intros Hin Hev. unfold main in Hin.
  apply (In_bind_later _ _ (from Prelude)) in Hin;
    [| apply prelude_emits | unfold from; now rewrite Hev].
  destruct Hin as ([] & t0 & H0 & Hin).
  apply (In_try_except_body _ _ (from Prelude)) in Hin;
    [| apply login_failed_emits | unfold from; now rewrite Hev].
  unfold main_body in Hin.
  apply (In_bind_later _ _ (from Preliminaries)) in Hin;
    [| apply preliminaries_emits | unfold from; now rewrite Hev].
  destruct Hin as (a & t1 & H1 & Hin).
  exists t0, a, t1. split; auto. split; auto.
  rewrite trace_bind in Hin. apply in_app_or in Hin as [Hin | Hin]; auto.
  destruct (fst (acquire w a)) as [mm | |]; simpl in Hin; try contradiction.
  pose proof (emits_In _ _ _ (finish_emits w a mm) Hin) as Hf.
  unfold after_acquire in Hf. rewrite Hev in Hf. discriminate.
Qed.

(** ** Claim C10 *)

Lemma split_after_prefix {X} (t0 body pre post : list X) (d x : X) :
  t0 ++ d :: body = pre ++ x :: post -> ~ In x t0 -> x <> d -> In d pre.
Proof.
  intros Heq Hx Hd. apply app_eq_app in Heq as [l [[-> Hl] | [-> Hl]]].
  - destruct l as [| y l]; simpl in Hl.
    + injection Hl as -> _. contradiction.
    + injection Hl as <- _. exfalso. apply Hx. apply in_or_app. right. now left.
  - destruct l as [| y l]; simpl in Hl.
    + injection Hl as -> _. contradiction.
    + injection Hl as -> _. apply in_or_app. right. now left.
Qed.

(** C10: whatever the collaborators answer, a call that tries to authenticate
    comes after a call of [secure_session.delete_token] in the same run, and
    that call returned. *)
Theorem C10_session_cleared_before_auth (w : world) (pre post : list event)
    (ev : event) :
  trace (main w) = pre ++ ev :: post ->
  is_auth_attempt ev = true ->
  In EDeleteToken pre /\ delete_token w = Returns tt.
Proof.
  intros Ht Hauth.
  assert (Hev : emitter ev = Some Acquire) by (destruct ev; try discriminate; reflexivity).
  assert (Hin : In ev (trace (main w))).
  { rewrite Ht. apply in_or_app. right. now left. }
  destruct (main_reaches_acquire w ev Hin Hev) as (t0 & a & t1 & H0 & H1 & _).
  destruct (preliminaries_cases w a t1 H1) as [Hdel [t1' ->]]. split; auto.
  destruct (main_from_acquire w t0 a _ H0 H1) as (tail & Heq & _).
  rewrite Ht in Heq. symmetry in Heq. simpl in Heq.
  apply (split_after_prefix _ _ _ _ _ _ Heq).
  - intros Hin0. pose proof (emits_In _ _ ev (prelude_emits w)) as Hp.
    unfold trace in Hp. rewrite H0 in Hp. specialize (Hp Hin0).
    unfold from in Hp. now rewrite Hev in Hp.
  - intros ->. discriminate.
Qed.

Lemma C10_session_cleared_before_auth_witness :
  In EDeleteToken
     [ELoadDotenv; EPrint MsgBanner; EImportMonarchmoney;
      EPrint (MsgVersion ("0.1.15" : str)); EDeleteToken; EPrint MsgCleared;
      EPrint MsgSecurityCheck; EInput AskHasMfa; EPrint MsgLoginMethods;
      EInput AskChoice; EPrint MsgStartingLogin; EInput AskEmail;
      EInput AskPassword; EConstruct (Client None)]
  /\ delete_token world_mfa = Returns tt.
Proof.
  apply (C10_session_cleared_before_auth world_mfa _
           [EPrint MsgMfaRequired; EInput AskMfaCode;
            EMultiFactorAuthenticate (Client None) ("user@example.com" : str)
              ("hunter2" : str) ("000000" : str);
            EPrint MsgMfaSuccessful; ESaveSession (Client None);
            EPrint MsgTestingConnection; EPrint MsgCallingGetAccounts;
            EGetAccounts (Client None); EPrint (MsgFoundAccounts 2);
            EPrint MsgSavingSession; ESaveAuthenticatedSession (Client None);
            EPrint MsgSessionSaved; EPrint MsgSetupComplete]
           (ELogin (Client None) ("user@example.com" : str) ("hunter2" : str)
                   false true)).
  - vm_compute. reflexivity.
  - reflexivity.
Defined.

(** ** Claim C8 *)

Lemma password_login_emits w :
  emits (fun ev => from Acquire ev && negb (asks_token ev)) (password_login w).
Proof. unfold password_login. footprint. Qed.

Lemma token_login_emits w :
  emits (fun ev => match ev with
                   | EPrint _ | EInput AskToken | EConstruct _ => true
                   | _ => false
                   end) (token_login w).
Proof. unfold token_login, _print_sso_token_instructions. footprint. Qed.

Lemma emits_trace {A} p (m : M A) c t : emits p m -> m = (c, t) -> forallb p t = true.
Proof. unfold emits, trace. now intros H ->. Qed.

(** C8: a run that asks for the token and is given text that normalises to
    the empty string prints that no token was provided and returns at once:
    the prompt and that line are the last two events, the prompt is not
    repeated, and no call on a client, nor the construction of one, is among
    the events of the run. *)
Theorem C8_blank_token_ends_run (w : world) (raw : str) :
  In (EInput AskToken) (trace (main w)) ->
  input w AskToken = Returns raw ->
  _normalize_token raw = [] ->
  fst (main w) = Returned
  /\ (exists pre,
        trace (main w) = pre ++ [EInput AskToken; EPrint MsgNoToken]
        /\ forallb (fun ev => negb (asks_token ev)) pre = true)
  /\ forallb no_client_call (trace (main w)) = true.
Proof.
  intros Hin Hraw Hnorm.
  destruct (main_reaches_acquire w _ Hin eq_refl) as (t0 & a & t1 & H0 & H1 & Hacq).
  destruct a.
  { pose proof (emits_In _ _ _ (password_login_emits w) Hacq). discriminate. }
  assert (Htok : token_login w
                 = (Returned, [EPrint MsgSsoInstructions; EInput AskToken;
                               EPrint MsgNoToken])).
  { unfold token_login, _print_sso_token_instructions. rewrite Hraw.
    cbn -[_normalize_token]. now rewrite Hnorm. }
  destruct (main_from_acquire w t0 _ t1 H0 H1) as (tail & Ht & _ & Hret).
  simpl acquire in *. rewrite Htok in *. destruct (Hret eq_refl) as [-> Hfst].
  cbn [trace snd] in Ht. rewrite app_nil_r in Ht.
  pose proof (emits_trace _ _ _ _ (prelude_emits w) H0) as P0.
  pose proof (emits_trace _ _ _ _ (preliminaries_emits w) H1) as P1.
  split; auto. split.
  - exists (t0 ++ t1 ++ [EPrint MsgSsoInstructions]). split.
    + rewrite Ht, <- !app_assoc. reflexivity.
    + rewrite !forallb_app.
      rewrite (forallb_impl (from Prelude) _ t0), (forallb_impl (from Preliminaries) _ t1);
        auto; intros [] ; try reflexivity; destruct p; try reflexivity; discriminate.
  - rewrite Ht, !forallb_app.
    rewrite (forallb_impl (from Prelude) _ t0), (forallb_impl (from Preliminaries) _ t1);
      auto; intros []; try reflexivity; discriminate.
Qed.

Lemma C8_blank_token_ends_run_witness :
  fst (main world_blank_token) = Returned
  /\ forallb no_client_call (trace (main world_blank_token)) = true.
Proof.
  assert (H : In (EInput AskToken) (trace (main world_blank_token))
              /\ input world_blank_token AskToken = Returns ("   " : str)
              /\ _normalize_token ("   " : str) = []).
  { vm_compute. intuition. }
  destruct H as (H1 & H2 & H3).
  destruct (C8_blank_token_ends_run world_blank_token ("   " : str) H1 H2 H3)
    as (Hfst & _ & Hno).
  split; assumption.
Defined.

(** ** Claim C7 *)

(** The validator makes one call whatever it is answered. *)
Lemma test_connection_trace w mm :
  trace (_test_connection w mm) = [EPrint MsgCallingGetAccounts; EGetAccounts mm].
Proof.
  unfold _test_connection. destruct (get_accounts w mm) as [resp | e]; [| reflexivity].
  cbn -[truthy is_dict py_get py_len].
  destruct (negb (truthy resp) || negb (is_dict resp)); [reflexivity |].
  destruct (py_get resp _ _) as [listing |]; [| reflexivity].
  now destruct (py_len listing).
Qed.

Lemma test_connection_result w mm resp :
  get_accounts w mm = Returns resp ->
  fst (_test_connection w mm) =
  if negb (truthy resp) || negb (is_dict resp) then Raised (RuntimeError resp)
  else match py_get resp "accounts" (PyList []) with
       | Some listing =>
           match py_len listing with
           | Some n => Normal n
           | None => Raised TypeError
           end
       | None => Raised (OtherError "AttributeError")
       end.
Proof.
  intros H. unfold _test_connection. rewrite H.
  cbn -[truthy is_dict py_get py_len].
  destruct (negb (truthy resp) || negb (is_dict resp)); [reflexivity |].
  destruct (py_get resp _ _) as [listing |]; [| reflexivity].
  now destruct (py_len listing).
Qed.

(** C7, as stated, fails: an empty mapping is a mapping, and the validator
    raises on it. *)
Lemma C7_empty_mapping_is_rejected :
  get_accounts world_empty_mapping (Client None) = Returns (PyDict [])
  /\ is_dict (PyDict []) = true
  /\ fst (_test_connection world_empty_mapping (Client None))
     = Raised (RuntimeError (PyDict [])).
Proof. repeat split. Qed.

(** C7, amended: the validator makes exactly one account-listing call.  On
    an answer it raises exactly when the answer is falsy (absent, or an
    empty mapping, among others), is not a mapping, or has an [accounts]
    entry without a length.  On a mapping that is not empty and whose
    [accounts] entry is a list, or is missing, it returns the number of
    accounts, which can be zero.  On a number it raises. *)
Theorem C7_validator_outcomes (w : world) (mm : handle) (resp : pyval) :
  get_accounts w mm = Returns resp ->
  trace (_test_connection w mm) = [EPrint MsgCallingGetAccounts; EGetAccounts mm]
  /\ ((exists e, fst (_test_connection w mm) = Raised e)
      <-> truthy resp = false \/ is_dict resp = false
          \/ exists listing, py_get resp "accounts" (PyList []) = Some listing
                             /\ py_len listing = None)
  /\ (forall items xs,
        resp = PyDict items -> items <> [] ->
        py_get resp "accounts" (PyList []) = Some (PyList xs) ->
        fst (_test_connection w mm) = Normal (length xs))
  /\ (forall items,
        resp = PyDict items -> items <> [] -> items_get "accounts" items = None ->
        fst (_test_connection w mm) = Normal 0)
  /\ (forall z, resp = PyInt z ->
        fst (_test_connection w mm) = Raised (RuntimeError resp)).
Proof.
  intros H. split; [apply test_connection_trace |].
  rewrite (test_connection_result w mm resp H). repeat split.
  - intros [e He]. destruct (truthy resp) eqn:Ht; auto.
    destruct (is_dict resp) eqn:Hd; auto. simpl in He. right. right.
    destruct resp; try discriminate. simpl in *.
    destruct (items_get _ items) as [x |].
    + exists x. split; auto. now destruct (py_len x).
    + discriminate.
  - intros [-> | [-> | (listing & -> & ->)]]; simpl.
    + eauto.
    + rewrite orb_true_r. eauto.
    + destruct (_ || _); eauto.
  - intros items xs -> Hne ->. destruct items; [contradiction | reflexivity].
  - intros items -> Hne Hget. destruct items; [contradiction |].
    cbv beta iota delta [py_get truthy is_dict negb orb]. now rewrite Hget.
  - intros z ->. simpl. now rewrite orb_true_r.
Qed.

Lemma C7_validator_outcomes_witness :
  get_accounts world_direct (Client None) = Returns two_accounts
  /\ fst (_test_connection world_direct (Client None)) = Normal 2.
Proof.
  split; [reflexivity |].
  destruct (C7_validator_outcomes world_direct (Client None) two_accounts eq_refl)
    as (_ & _ & Hlist & _).
  apply (Hlist [("accounts" : str, PyList [PyInt 1; PyInt 2])] [PyInt 1; PyInt 2]);
    [reflexivity | discriminate | reflexivity].
Defined.

(** ** Claim C9 *)

Lemma validate_calls_get_accounts w a mm :
  In (EGetAccounts mm) (trace (validate w a mm)).
Proof.
  unfold validate. rewrite trace_bind. simpl. right.
  rewrite trace_try_except, trace_bind, test_connection_trace. simpl. auto.
Qed.

(** A run that hands a client to the keyring acquired that client and
    validated it. *)
Lemma main_reaches_publish w mm :
  In (ESaveAuthenticatedSession mm) (trace (main w)) ->
  exists t0 a t1 t2 t3,
    prelude w = (Normal tt, t0) /\ preliminaries w = (Normal a, t1)
    /\ acquire w a = (Normal mm, t2) /\ validate w a mm = (Normal tt, t3).
Proof.
  intros Hin. unfold main in Hin.
  apply (In_bind_later _ _ (from Prelude)) in Hin;
    [| apply prelude_emits | reflexivity].
  destruct Hin as ([] & t0 & H0 & Hin).
  apply (In_try_except_body _ _ (from Prelude)) in Hin;
    [| apply login_failed_emits | reflexivity].
  unfold main_body in Hin.
  apply (In_bind_later _ _ (from Preliminaries)) in Hin;
    [| apply preliminaries_emits | reflexivity].
  destruct Hin as (a & t1 & H1 & Hin).
  apply (In_bind_later _ _ (from Acquire)) in Hin;
    [| apply acquire_emits | reflexivity].
  destruct Hin as (mm' & t2 & H2 & Hin).
  apply (In_bind_later _ _ (from Validate)) in Hin;
    [| apply validate_emits | reflexivity].
  destruct Hin as ([] & t3 & H3 & Hin).
  assert (mm' = mm) as ->.
  { unfold publish in Hin.
    destruct (save_authenticated_session w mm'); simpl in Hin;
      repeat (destruct Hin as [Hin | Hin];
              [try discriminate; try (now injection Hin) |]);
      contradiction. }
  exists t0, a, t1, t2, t3. auto.
Qed.

(** C9: in a run that reaches the hand-over to the keyring, which is after
    the client was acquired and validated, an exception of
    [save_authenticated_session] is reported and nothing else happens to the
    session: the run prints that setup is complete and falls off the end of
    [main]; after the failed call there are only printed lines. *)
Theorem C9_keyring_failure_is_not_fatal (w : world) (mm : handle) (e : exn) :
  In (ESaveAuthenticatedSession mm) (trace (main w)) ->
  save_authenticated_session w mm = Raises e ->
  fst (main w) = Normal tt
  /\ exists pre,
       trace (main w) =
       pre ++ [ESaveAuthenticatedSession mm; EPrint (MsgCouldNotSave e);
               EPrint MsgMayNeedRerun; EPrint MsgSetupComplete]
       /\ In (EGetAccounts mm) pre.
Proof.
  intros Hin Hsave.
  destruct (main_reaches_publish w mm Hin) as (t0 & a & t1 & t2 & t3 & H0 & H1 & H2 & H3).
  assert (Hpub : publish w mm =
                 (Normal tt, [EPrint MsgSavingSession; ESaveAuthenticatedSession mm;
                              EPrint (MsgCouldNotSave e); EPrint MsgMayNeedRerun;
                              EPrint MsgSetupComplete])).
  { unfold publish. now rewrite Hsave. }
  assert (Hbody : main_body w =
                  (Normal tt, t1 ++ t2 ++ t3 ++ snd (publish w mm))).
  { unfold main_body. rewrite (bind_normal _ _ _ _ H1), (bind_normal _ _ _ _ H2),
      (bind_normal _ _ _ _ H3). rewrite Hpub. reflexivity. }
  rewrite (main_after_prelude w t0 H0), Hbody, Hpub. cbn [fst snd trace].
  split; auto.
  exists (t0 ++ t1 ++ t2 ++ t3 ++ [EPrint MsgSavingSession]). split.
  - rewrite app_nil_r, <- !app_assoc. reflexivity.
  - pose proof (validate_calls_get_accounts w a mm) as Hg.
    unfold trace in Hg. rewrite H3 in Hg. simpl in Hg.
    apply in_or_app. right. apply in_or_app. right. apply in_or_app. right.
    apply in_or_app. now left.
Qed.

Lemma C9_keyring_failure_is_not_fatal_witness :
  In (ESaveAuthenticatedSession (Client None)) (trace (main world_keyring_fails))
  /\ save_authenticated_session world_keyring_fails (Client None)
     = Raises (OtherError "KeyringError")
  /\ fst (main world_keyring_fails) = Normal tt.
Proof.
  assert (H : In (ESaveAuthenticatedSession (Client None))
                 (trace (main world_keyring_fails))).
  { vm_compute. intuition. }
  split; [exact H |]. split; [reflexivity |].
  apply (C9_keyring_failure_is_not_fatal world_keyring_fails (Client None)
           (OtherError "KeyringError") H eq_refl).
Defined.

(** ** Claim C1 *)

Lemma explicit_saves_app t1 t2 :
  explicit_saves (t1 ++ t2) = explicit_saves t1 + explicit_saves t2.
Proof. unfold explicit_saves. now rewrite filter_app, length_app. Qed.

Lemma explicit_saves_none p t :
  (forall ev, p ev = true -> is_save_session ev = false) ->
  forallb p t = true -> explicit_saves t = 0.
Proof.
  intros Hp. unfold explicit_saves. induction t as [| ev t IH]; simpl; auto.
  intros [Hev Ht]%andb_prop. rewrite (Hp _ Hev). auto.
Qed.

(** The password branch, by what the login call does. *)
Lemma password_login_direct w email pass :
  input w AskEmail = Returns email -> input w AskPassword = Returns pass ->
  login w (Client None) email pass = Returns tt ->
  password_login w =
  (Normal (Client None),
   [EInput AskEmail; EInput AskPassword; EConstruct (Client None);
    ELogin (Client None) email pass false true; EPrint MsgLoginSuccessful]).
Proof.
  intros He Hp Hl. unfold password_login. rewrite He. simpl. rewrite Hp. simpl.
  now rewrite Hl.
Qed.

Lemma password_login_mfa w email pass code :
  input w AskEmail = Returns email -> input w AskPassword = Returns pass ->
  login w (Client None) email pass = Raises RequireMFAException ->
  input w AskMfaCode = Returns code ->
  multi_factor_authenticate w (Client None) email pass code = Returns tt ->
  exists c,
    password_login w =
    (c, [EInput AskEmail; EInput AskPassword; EConstruct (Client None);
         ELogin (Client None) email pass false true; EPrint MsgMfaRequired;
         EInput AskMfaCode;
         EMultiFactorAuthenticate (Client None) email pass code;
         EPrint MsgMfaSuccessful; ESaveSession (Client None)])
    /\ (save_session w (Client None) = Returns tt -> c = Normal (Client None)).
Proof.
  intros He Hp Hl Hc Hm. unfold password_login. rewrite He. simpl. rewrite Hp.
  simpl. rewrite Hl. simpl.
  rewrite Hc. simpl. rewrite Hm. simpl.
  destruct (save_session w (Client None)) as [[] | e]; simpl; eauto.
  eexists. split; [reflexivity | discriminate].
Qed.

Lemma password_login_call w mm email pass u s :
  In (ELogin mm email pass u s) (trace (password_login w)) ->
  mm = Client None /\ u = false /\ s = true
  /\ input w AskEmail = Returns email /\ input w AskPassword = Returns pass.
Proof.
  unfold password_login.
  destruct (input w AskEmail) as [email' | e1]; simpl;
    [| intuition discriminate].
  destruct (input w AskPassword) as [pass' | e2]; simpl;
    [| intuition discriminate].
  destruct (login w (Client None) email' pass') as [[] | []]; simpl;
    try destruct (input w AskMfaCode) as [code |]; simpl;
    try destruct (multi_factor_authenticate w _ _ _ code) as [[] |]; simpl;
    try destruct (save_session w (Client None)) as [[] |]; simpl;
    intros H;
    repeat (destruct H as [H | H];
            [try discriminate; try (injection H as <- <- <- <- <-; now auto) |]);
    contradiction.
Qed.

(** C1, as stated, fails: when the login succeeds at once the script makes
    no call of [save_session] of its own; it has only asked [login] to save
    the session. *)
Lemma C1_direct_login_saves_nothing :
  login world_direct (Client None) ("user@example.com" : str) ("hunter2" : str)
  = Returns tt
  /\ In (EGetAccounts (Client None)) (trace (main world_direct))
  /\ explicit_saves (trace (main world_direct)) = 0.
Proof. vm_compute. intuition. Qed.

(** C1, amended: the login is called with [use_saved_session=False] and
    [save_session=True].  When it raises the MFA signal and the multi-factor
    exchange succeeds, the run makes exactly one explicit call of
    [save_session], on the client of the login, after the exchange and
    before any account listing.  When the login succeeds at once, the run
    makes no explicit call of [save_session]. *)
Theorem C1_explicit_save_only_after_mfa (w : world) (mm : handle)
    (email pass : str) (u s : bool) :
  In (ELogin mm email pass u s) (trace (main w)) ->
  (u = false /\ s = true)
  /\ (login w mm email pass = Returns tt -> explicit_saves (trace (main w)) = 0)
  /\ (forall code,
        login w mm email pass = Raises RequireMFAException ->
        input w AskMfaCode = Returns code ->
        multi_factor_authenticate w mm email pass code = Returns tt ->
        exists pre post,
          trace (main w) = pre ++ ESaveSession mm :: post
          /\ explicit_saves pre = 0 /\ explicit_saves post = 0
          /\ In (EMultiFactorAuthenticate mm email pass code) pre
          /\ forallb (fun ev => negb (is_get_accounts ev)) pre = true).
Proof.
  intros Hin.
  destruct (main_reaches_acquire w _ Hin eq_refl) as (t0 & a & t1 & H0 & H1 & Hacq).
  destruct a; simpl in Hacq;
    [| pose proof (emits_In _ _ _ (token_login_emits w) Hacq); discriminate].
  destruct (password_login_call w _ _ _ _ _ Hacq) as (-> & -> & -> & He & Hp).
  destruct (main_from_acquire w t0 password t1 H0 H1) as (tail & Ht & Htail & _).
  simpl acquire in Ht.
  pose proof (emits_trace _ _ _ _ (prelude_emits w) H0) as P0.
  pose proof (emits_trace _ _ _ _ (preliminaries_emits w) H1) as P1.
  assert (S0 : explicit_saves t0 = 0).
  { apply (explicit_saves_none (from Prelude)); auto.
    intros ev Hev. now destruct ev. }
  assert (S1 : explicit_saves t1 = 0).
  { apply (explicit_saves_none (from Preliminaries)); auto.
    intros ev Hev. now destruct ev. }
  assert (St : explicit_saves tail = 0).
  { apply (explicit_saves_none after_acquire); auto.
    intros ev Hev. now destruct ev. }
  split; auto. split.
  - intros Hl. rewrite Ht, (password_login_direct w email pass He Hp Hl).
    cbn [trace snd]. rewrite !explicit_saves_app, S0, S1, St. reflexivity.
  - intros code Hl Hc Hm.
    destruct (password_login_mfa w email pass code He Hp Hl Hc Hm) as (c & Hpw & _).
    rewrite Ht, Hpw. cbn [trace snd].
    exists (t0 ++ t1 ++
            [EInput AskEmail; EInput AskPassword; EConstruct (Client None);
             ELogin (Client None) email pass false true; EPrint MsgMfaRequired;
             EInput AskMfaCode;
             EMultiFactorAuthenticate (Client None) email pass code;
             EPrint MsgMfaSuccessful]), tail.
    split; [now rewrite <- !app_assoc |]. split.
    { rewrite !explicit_saves_app, S0, S1. reflexivity. }
    split; auto. split.
    { apply in_or_app. right. apply in_or_app. right. simpl. auto 10. }
    rewrite !forallb_app.
    rewrite (forallb_impl (from Prelude) _ t0), (forallb_impl (from Preliminaries) _ t1);
      auto; intros []; try reflexivity; discriminate.
Qed.

Lemma C1_explicit_save_only_after_mfa_witness :
  In (ELogin (Client None) ("user@example.com" : str) ("hunter2" : str) false true)
     (trace (main world_mfa))
  /\ exists pre post,
       trace (main world_mfa) = pre ++ ESaveSession (Client None) :: post
       /\ explicit_saves pre = 0 /\ explicit_saves post = 0.
Proof.
  assert (H : In (ELogin (Client None) ("user@example.com" : str)
                         ("hunter2" : str) false true)
                 (trace (main world_mfa))).
  { vm_compute. intuition. }
  split; [exact H |].
  destruct (C1_explicit_save_only_after_mfa world_mfa _ _ _ _ _ H) as (_ & _ & Hmfa).
  destruct (Hmfa ("000000" : str) eq_refl eq_refl eq_refl)
    as (pre & post & Ht & Hpre & Hpost & _).
  exists pre, post. auto.
Defined.

